(** * Semantic search over social media posts: the embedding and ranking core

    A shallow embedding of the notebook
    [semantic-search-over_social-media-posts.ipynb]: the functions
    [compute_doc_embedding] and [vectorize_posts] and the cell that ranks the
    posts against every query.

    - A NumPy [float64] is a primitive binary64 float ([PrimFloat.float]), a
      one-dimensional array is a [list float], a two-dimensional array is the
      list of its rows.
    - A Python [dict] is a [gmap]: [en_embeddings] maps a token to its array.
      The order in which a [dict] keeps its keys is not modelled.
    - A Python exception is a value of [exn]; code that can raise returns a
      [result].
    - [np.argsort] is a parameter of the ranking, constrained by what NumPy
      promises of it ([is_argsort]).  [insertion_argsort] is one sort that
      keeps the promise, the insertion sort of NumPy's scalar code for short
      arrays; it is not [np.argsort] on longer arrays, and serves to run the
      ranking on the sample.  [utils.cosine_similarity] is not among the
      sources and is modelled from the specification.
    - The query cell is modelled twice: by the value it ends with
      ([query_cell]), and by what it leaves in the notebook's global
      [query_posts_similarities] when it ends, also with an exception
      ([query_cell_global]). *)

From Stdlib Require Import ZArith Floats Uint63 Lia Bool.
From stdpp Require Import gmap strings list pretty.

Local Open Scope Z_scope.
Local Open Scope nat_scope.

(** ** Exceptions *)

Inductive exn : Set :=
  | ValueError
  | IndexError
  | UnboundLocalError.

Inductive result (A : Type) : Type :=
  | Ok (a : A)
  | Raise (e : exn).
Arguments Ok {A} a.
Arguments Raise {A} e.

#[global] Instance result_ret : MRet result := fun _ a => Ok a.
#[global] Instance result_bind : MBind result := fun _ _ k r =>
  match r with
  | Ok a => k a
  | Raise e => Raise e
  end.

Definition is_Ok {A} (r : result A) : Prop := exists a, r = Ok a.

(** ** NumPy arrays of [float64] *)

(** A one-dimensional array, and a two-dimensional array by its rows. *)
Abbreviation ndarray := (list float).
Abbreviation matrix := (list (list float)).

Module np.

(** [np.zeros(n)] *)
Definition zeros (n : nat) : ndarray := replicate n 0%float.

(** The value an [int] takes when NumPy divides a [float64] array by it:
    the nearest binary64.  A list length is below [2^63]. *)
Definition float_of_int (n : Z) : float :=
  PrimFloat.of_uint63 (Uint63.of_Z n).

(** [a + b] on two arrays of one shape. *)
Definition add (a b : ndarray) : ndarray := zip_with PrimFloat.add a b.

(** [a += b]: [b] is broadcast to the shape of [a], which keeps its shape.
    A [b] of the same length is added pointwise, a [b] of length one is
    added to every entry, any other shape is a [ValueError]. *)
Definition iadd (a b : ndarray) : result ndarray :=
  if decide (length b = length a) then Ok (add a b)
  else match b with
       | [x] => Ok (map (fun y => PrimFloat.add y x) a)
       | _ => Raise ValueError
       end.

(** [np.divide(a, n)] for a Python [int] [n]. *)
Definition divide (a : ndarray) (n : Z) : ndarray :=
  map (fun x => PrimFloat.div x (float_of_int n)) a.

(** [np.vstack(rows)]: at least one row, all of one length. *)
Definition vstack (rows : list ndarray) : result matrix :=
  match rows with
  | [] => Raise ValueError
  | r :: rs =>
      if forallb (fun x => length x =? length r) rs then Ok rows
      else Raise ValueError
  end.

End np.

Arguments np.zeros : simpl never.


(** ** The notebook's global names *)

(** The globals the embedded cells read: the embedding table unpickled into
    [en_embeddings], the raw posts [ls_posts] and [configurations["top-k"]]. *)
Record globals : Type := {
  en_embeddings : gmap string ndarray;
  ls_posts : list string;
  top_k : Z
}.

(** Every array of the table has 300 entries. *)
Definition store_wf (store : gmap string ndarray) : Prop :=
  map_Forall (fun _ v => length v = 300) store.

(** ** [compute_doc_embedding] *)

(** [en_embeddings.get(token, np.zeros(300))] *)
Definition get_embedding (G : globals) (token : string) : ndarray :=
  default (np.zeros 300) (en_embeddings G !! token).

(** The body of [for token in post], and the loop.  [post] is the whole
    post, of which [len(post)] is taken at every step. *)
Definition embedding_step (G : globals) (post : list string)
    (doc_embedding : ndarray) (token : string) : result ndarray :=
  doc_embedding ← np.iadd doc_embedding (get_embedding G token);
  mret (np.divide doc_embedding (Z.of_nat (length post))).

Fixpoint embedding_loop (G : globals) (post : list string)
    (doc_embedding : ndarray) (tokens : list string) : result ndarray :=
  match tokens with
  | [] => Ok doc_embedding
  | token :: tokens =>
      doc_embedding ← embedding_step G post doc_embedding token;
      embedding_loop G post doc_embedding tokens
  end.

(** [compute_doc_embedding(post)]; the table is the global
    [en_embeddings]. *)
Definition compute_doc_embedding (G : globals) (post : list string)
    : result ndarray :=
  embedding_loop G post (np.zeros 300) post.

(** ** [vectorize_posts] *)

(** The local names of [vectorize_posts].  [document_vec_matrix] is bound by
    the loop body only. *)
Record vp_locals : Type := {
  ind2Doc_dict : gmap nat ndarray;
  document_vec_l : list ndarray;
  i : nat;
  document_vec_matrix : option matrix
}.

Definition vp_init : vp_locals :=
  {| ind2Doc_dict := ∅; document_vec_l := []; i := 0;
     document_vec_matrix := None |}.

(** The body of [for post in posts]. *)
Definition vp_step (G : globals) (st : vp_locals) (post : list string)
    : result vp_locals :=
  doc_embedding ← compute_doc_embedding G post;
  let dict := <[i st := doc_embedding]> (ind2Doc_dict st) in
  let vec_l := document_vec_l st ++ [doc_embedding] in
  m ← np.vstack vec_l;
  mret {| ind2Doc_dict := dict; document_vec_l := vec_l; i := S (i st);
          document_vec_matrix := Some m |}.

Fixpoint vp_loop (G : globals) (st : vp_locals) (posts : list (list string))
    : result vp_locals :=
  match posts with
  | [] => Ok st
  | post :: posts => st ← vp_step G st post; vp_loop G st posts
  end.

(** [vectorize_posts(posts, en_embeddings)].  The parameter [en_embeddings]
    is not read: [compute_doc_embedding] looks the tokens up in the global
    of that name. *)
Definition vectorize_posts (G : globals) (posts : list (list string))
    (en_embeddings_arg : gmap string ndarray)
    : result (matrix * gmap nat ndarray) :=
  st ← vp_loop G vp_init posts;
  match document_vec_matrix st with
  | Some m => Ok (m, ind2Doc_dict st)
  | None => Raise UnboundLocalError
  end.

(** ** Cosine similarity *)

(** [utils.cosine_similarity] is imported by the notebook and is not among
    the sources; the four definitions below follow the specification. *)

(** Modelled from the spec: the dot product of the cosine similarity,
    summed from the first entry on. *)
Definition dot (a b : ndarray) : float :=
  foldl (fun acc xy => PrimFloat.add acc (PrimFloat.mul xy.1 xy.2)) 0%float
        (zip a b).

(** Modelled from the spec: the norm [‖a‖] of the cosine similarity. *)
Definition norm (a : ndarray) : float := PrimFloat.sqrt (dot a a).

(** Modelled from the spec: the score of a row [r] against the query [q] is
    [dot(q, r) / (‖q‖ · ‖r‖)], and [0] when either norm is exactly zero. *)
Definition cosine (q r : ndarray) : float :=
  if PrimFloat.eqb (norm q) 0%float || PrimFloat.eqb (norm r) 0%float
  then 0%float
  else PrimFloat.div (dot q r) (PrimFloat.mul (norm q) (norm r)).

(** Modelled from the spec: [utils.cosine_similarity], which is missing from
    the sources, gives the score of every row of the matrix against the
    query, one score per row, in the order of the rows. *)
Definition cosine_similarity (posts_vec_matrix : matrix)
    (query_embedding : ndarray) : list float :=
  map (cosine query_embedding) posts_vec_matrix.

(** ** Sorting and slicing *)

(** The order NumPy sorts [float64] by: [a < b], or [b] is NaN and [a] is
    not, so that NaN comes after every number. *)
Definition npy_lt (a b : float) : bool :=
  PrimFloat.ltb a b || (negb (PrimFloat.eqb b b) && PrimFloat.eqb a a).

(** [v[idx]] where the index is known to be in range; NaN stands for an
    index that is not. *)
Definition item (v : list float) (idx : nat) : float :=
  default nan (v !! idx).

(** [R] holds of every entry and every entry listed after it. *)
Fixpoint pairwise {A} (R : A -> A -> bool) (l : list A) : bool :=
  match l with
  | [] => true
  | a :: rest => forallb (R a) rest && pairwise R rest
  end.

(** The indices [idx] list entries of [v] in ascending order: no entry is
    smaller, in NumPy's order, than one listed before it. *)
Definition ascending (v : list float) (idx : list nat) : bool :=
  pairwise (fun a b => negb (npy_lt (item v b) (item v a))) idx.

(** The same, descending: no entry is greater than one listed before it. *)
Definition descending (v : list float) (idx : list nat) : bool :=
  pairwise (fun a b => negb (npy_lt (item v a) (item v b))) idx.

(** Descending for the comparison [<=] of [float64] itself. *)
Definition non_increasing (v : list float) (idx : list nat) : bool :=
  pairwise (fun a b => PrimFloat.leb (item v b) (item v a)) idx.

(** The ranking as the specification words it: non-increasing, and of two
    entries with equal scores the one listed first has the lower index. *)
Definition non_increasing_ties_by_index (v : list float) (idx : list nat)
    : bool :=
  pairwise (fun a b =>
              PrimFloat.leb (item v b) (item v a)
              && (negb (PrimFloat.eqb (item v a) (item v b))
                  || (a <? b))) idx.

(** Descending, and of two entries with equal scores the one listed first
    has the higher index: [a] may be listed before [b]. *)
Definition before_stable (v : list float) (a b : nat) : bool :=
  negb (npy_lt (item v a) (item v b))
  && (npy_lt (item v b) (item v a) || (b <? a)).

Definition descending_ties_by_higher_index (v : list float) (idx : list nat)
    : bool :=
  pairwise (before_stable v) idx.

(** What [np.argsort(v)] promises of its result [idx]: a permutation of the
    indices of [v] that lists the entries in ascending order.  The order of
    equal entries is left open for the default [kind]. *)
Definition is_argsort (v : list float) (idx : list nat) : bool :=
  (length idx =? length v)
  && forallb (fun a => a <? length v) idx
  && bool_decide (NoDup idx)
  && ascending v idx.

(** No entry of [v] is NaN. *)
Definition no_nan (v : list float) : bool :=
  forallb (fun x => PrimFloat.eqb x x) v.

(** One sort that keeps the promise of [np.argsort]: the insertion sort of
    NumPy's scalar code for arrays of at most 16 entries, in which each index
    in turn moves left past the indices of greater entries.  On longer arrays
    [np.argsort] partitions first and orders equal entries differently, so
    this is not [np.argsort] there.  [sorted_rev] is the sorted part, last
    index first. *)
Fixpoint insert_index (v : list float) (vi : nat) (sorted_rev : list nat)
    : list nat :=
  match sorted_rev with
  | [] => [vi]
  | pk :: rest =>
      if npy_lt (item v vi) (item v pk)
      then pk :: insert_index v vi rest
      else vi :: pk :: rest
  end.

Definition insertion_argsort (v : list float) : list nat :=
  reverse (foldl (fun sorted_rev vi => insert_index v vi sorted_rev) []
                 (seq 0 (length v))).

(** [l[start:]] *)
Definition slice_from {A} (l : list A) (start : Z) : list A :=
  let len := Z.of_nat (length l) in
  let start := if (start <? 0)%Z then Z.max (start + len) 0
               else Z.min start len in
  drop (Z.to_nat start) l.

(** [l[idx]] for an index that is not negative. *)
Definition getitem {A} (l : list A) (idx : nat) : result A :=
  match l !! idx with
  | Some x => Ok x
  | None => Raise IndexError
  end.

(** ** The query cell *)

(** One entry of [top_posts], a [dict] with the keys ['post ID'],
    ['post text'] and ['sim score']. *)
Record top_post : Type := {
  post_ID : string;
  post_text : string;
  sim_score : string
}.

Section Ranking.

(** [np.argsort], and [str] on a [float64] (the shortest decimal that reads
    back as the same number); neither is modelled further. *)
Variable argsort : list float -> list nat.
Variable str_float : float -> string.

(** [np.argsort(cosine_score)[-k:][::-1]] *)
Definition top_indices (cosine_score : list float) (k : Z) : list nat :=
  reverse (slice_from (argsort cosine_score) (- k)).

(** The two lines that rank the posts against one query embedding. *)
Definition rank (posts_vec_matrix : matrix) (query_embedding : ndarray)
    (k : Z) : list nat :=
  top_indices (cosine_similarity posts_vec_matrix query_embedding) k.

(** The body of [for idx in top_indices], and the loop. *)
Definition top_post_of (G : globals) (cosine_score : list float) (idx : nat)
    : result top_post :=
  text ← getitem (ls_posts G) idx;
  score ← getitem cosine_score idx;
  mret {| post_ID := pretty idx; post_text := text;
          sim_score := str_float score |}.

Fixpoint top_posts_loop (G : globals) (cosine_score : list float)
    (top_posts : list top_post) (indices : list nat)
    : result (list top_post) :=
  match indices with
  | [] => Ok top_posts
  | idx :: indices =>
      p ← top_post_of G cosine_score idx;
      top_posts_loop G cosine_score (top_posts ++ [p]) indices
  end.

(** The [top_posts] of one query. *)
Definition query_top_posts (G : globals) (posts_vec_matrix : matrix)
    (query : list string) : result (list top_post) :=
  query_embedding ← compute_doc_embedding G query;
  let cosine_score := cosine_similarity posts_vec_matrix query_embedding in
  top_posts_loop G cosine_score []
    (top_indices cosine_score (top_k G)).

(** [' '.join(query)] *)
Definition query_str (query : list string) : string :=
  String.concat " " query.

(** The body of [for query in tokenized_queries]. *)
Definition query_step (G : globals) (posts_vec_matrix : matrix)
    (query_posts_similarities : gmap string (list top_post))
    (query : list string) : result (gmap string (list top_post)) :=
  query_embedding ← compute_doc_embedding G query;
  let cosine_score := cosine_similarity posts_vec_matrix query_embedding in
  let top_indices := top_indices cosine_score (top_k G) in
  let key := query_str query in
  let query_posts_similarities := <[key := []]> query_posts_similarities in
  top_posts ← top_posts_loop G cosine_score [] top_indices;
  mret (<[key := top_posts]> query_posts_similarities).

Fixpoint query_loop (G : globals) (posts_vec_matrix : matrix)
    (query_posts_similarities : gmap string (list top_post))
    (tokenized_queries : list (list string))
    : result (gmap string (list top_post)) :=
  match tokenized_queries with
  | [] => Ok query_posts_similarities
  | query :: tokenized_queries =>
      d ← query_step G posts_vec_matrix query_posts_similarities query;
      query_loop G posts_vec_matrix d tokenized_queries
  end.

(** The cell: [query_posts_similarities] starts empty. *)
Definition query_cell (G : globals) (posts_vec_matrix : matrix)
    (tokenized_queries : list (list string))
    : result (gmap string (list top_post)) :=
  query_loop G posts_vec_matrix ∅ tokenized_queries.

End Ranking.

(** ** The encoder as the specification words it *)

(** After each token the running sum is divided by the number of tokens
    processed so far, [processed] counting them. *)
Fixpoint encode_running (G : globals) (processed : nat)
    (doc_embedding : ndarray) (tokens : list string) : result ndarray :=
  match tokens with
  | [] => Ok doc_embedding
  | token :: tokens =>
      doc_embedding ← np.iadd doc_embedding (get_embedding G token);
      encode_running G (S processed)
        (np.divide doc_embedding (Z.of_nat (S processed))) tokens
  end.

Definition encode_processed_so_far (G : globals) (post : list string)
    : result ndarray :=
  encode_running G 0 (np.zeros 300) post.

(** The encoder with the divisor the code has, the length of the whole
    post, as one left fold without exceptions. *)
Definition encode_whole_length (G : globals) (post : list string) : ndarray :=
  foldl (fun doc_embedding token =>
           np.divide (np.add doc_embedding (get_embedding G token))
                     (Z.of_nat (length post)))
        (np.zeros 300) post.

(** One entry of that embedding by itself: [x] becomes
    [(x + e) / len(post)] for the entry [e] of the array of each token in
    turn, so that what a token adds is divided once more at every later
    token. *)
Definition entry_recurrence (G : globals) (post : list string) (j : nat)
    : float :=
  foldl (fun x token =>
           PrimFloat.div (PrimFloat.add x (item (get_embedding G token) j))
                         (np.float_of_int (Z.of_nat (length post))))
        0%float post.

(** The globals with [token] bound to [v] in the table. *)
Definition set_embedding (token : string) (v : ndarray) (G : globals)
    : globals :=
  {| en_embeddings := <[token := v]> (en_embeddings G);
     ls_posts := ls_posts G;
     top_k := top_k G |}.

(** ** Invariant of the loop of [vectorize_posts] *)

(** After [i] posts: the list holds [i] arrays of 300 entries, the
    dictionary maps [j] to the [j]-th of them, and the matrix, once bound,
    has them as its rows. *)
Record vp_inv (st : vp_locals) : Prop := {
  vp_inv_i : i st = length (document_vec_l st);
  vp_inv_rows : Forall (fun r => length r = 300) (document_vec_l st);
  vp_inv_dict : forall j, ind2Doc_dict st !! j = document_vec_l st !! j;
  vp_inv_matrix :
    match document_vec_matrix st with
    | Some m => m = document_vec_l st /\ document_vec_l st <> []
    | None => document_vec_l st = []
    end
}.

(** ** Binary64 values that are positive and not zero *)

Definition pos_nonzero (f : spec_float) : Prop :=
  match f with
  | S754_finite false _ _ | S754_infinity false => True
  | _ => False
  end.

(** NumPy's order, on the specification of binary64. *)
Definition sf_lt (x y : spec_float) : bool :=
  SFltb x y || (negb (SFeqb y y) && SFeqb x x).

(** ** Sample data *)

Module sample.

(** A table with the two tokens [sunny] and [rainy]. *)
Definition store : gmap string ndarray :=
  <["sunny" := replicate 300 2%float]>
    (<["rainy" := replicate 300 (-4)%float]> ∅).

(** Three posts, the last a repetition of the first. *)
Definition G (k : Z) : globals :=
  {| en_embeddings := store;
     ls_posts := ["sunny day"; "rainy day"; "sunny day"];
     top_k := k |}.

Definition posts : list (list string) :=
  [["sunny"; "day"]; ["rainy"; "day"]; ["sunny"; "day"]].

(** The matrix [vectorize_posts] builds of them. *)
Definition posts_vec_matrix : matrix :=
  [replicate 300 0.5%float; replicate 300 (-1)%float;
   replicate 300 0.5%float].

(** The embedding of the query [sunny]. *)
Definition query_embedding : ndarray := replicate 300 2%float.

(** The scores of the three posts against it: the first and the last are
    equal. *)
Definition cosine_score : list float :=
  cosine_similarity posts_vec_matrix query_embedding.

(** A stand-in for [str] on a [float64], for running the query cell. *)
Definition str_float (x : float) : string := "".

End sample.

(** ** Further notions *)

(** [+=] can add the array [v] to an array of 300 entries: [v] has 300
    entries, or one. *)
Definition broadcastable (v : ndarray) : bool :=
  (length v =? 300) || (length v =? 1).

(** [row] is the embedding [compute_doc_embedding] returns for [post]. *)
Definition embeds (G : globals) (post : list string) (row : ndarray) : Prop :=
  compute_doc_embedding G post = Ok row.

(** The entry of [top_posts] for the index [idx] of a post that is there:
    its index, its raw text and its score. *)
Definition top_post_at (str_float : float -> string) (G : globals)
    (cosine_score : list float) (idx : nat) : top_post :=
  {| post_ID := pretty idx;
     post_text := default "" (ls_posts G !! idx);
     sim_score := str_float (item cosine_score idx) |}.

(** The string has no space in it. *)
Fixpoint no_space (s : string) : bool :=
  match s with
  | EmptyString => true
  | String c s => negb (Ascii.eqb c Ascii.Space) && no_space s
  end.

Section CellGlobal.
Variable argsort : list float -> list nat.
Variable str_float : float -> string.

(** The body of [for query in tokenized_queries] with what it leaves in the
    notebook: the global [query_posts_similarities] after the turn, and the
    exception that ended the turn, if one did.  An exception raised by
    [compute_doc_embedding] comes before the key is bound; one raised in the
    loop over [top_indices] comes after [query_posts_similarities[query_str]
    = []] and before the second assignment, and [top_posts] is another
    list than the one bound there. *)
Definition query_step_global (G : globals) (posts_vec_matrix : matrix)
    (query_posts_similarities : gmap string (list top_post))
    (query : list string) : gmap string (list top_post) * option exn :=
  match compute_doc_embedding G query with
  | Raise e => (query_posts_similarities, Some e)
  | Ok query_embedding =>
      let cosine_score :=
        cosine_similarity posts_vec_matrix query_embedding in
      let top_indices := top_indices argsort cosine_score (top_k G) in
      let key := query_str query in
      let query_posts_similarities :=
        <[key := []]> query_posts_similarities in
      match top_posts_loop str_float G cosine_score [] top_indices with
      | Raise e => (query_posts_similarities, Some e)
      | Ok top_posts =>
          (<[key := top_posts]> query_posts_similarities, None)
      end
  end.

(** The loop: an exception ends it, and the global stays as it is then. *)
Fixpoint query_loop_global (G : globals) (posts_vec_matrix : matrix)
    (query_posts_similarities : gmap string (list top_post))
    (tokenized_queries : list (list string))
    : gmap string (list top_post) * option exn :=
  match tokenized_queries with
  | [] => (query_posts_similarities, None)
  | query :: tokenized_queries =>
      match query_step_global G posts_vec_matrix query_posts_similarities
              query with
      | (d, None) => query_loop_global G posts_vec_matrix d tokenized_queries
      | (d, Some e) => (d, Some e)
      end
  end.

(** The cell: [query_posts_similarities = {}], then the loop. *)
Definition query_cell_global (G : globals) (posts_vec_matrix : matrix)
    (tokenized_queries : list (list string))
    : gmap string (list top_post) * option exn :=
  query_loop_global G posts_vec_matrix ∅ tokenized_queries.

End CellGlobal.

Section Notebook.
Variable argsort : list float -> list nat.
Variable str_float : float -> string.

(** The two cells one after the other:
    [posts_vec_matrix, ind2Doc_dict = vectorize_posts(tokenized_posts,
    en_embeddings)], then the query cell on that matrix. *)
Definition notebook (G : globals) (tokenized_posts : list (list string))
    (tokenized_queries : list (list string))
    : result (gmap string (list top_post)) :=
  r ← vectorize_posts G tokenized_posts (en_embeddings G);
  query_cell argsort str_float G r.1 tokenized_queries.

End Notebook.

(** The sample with one raw post missing from [ls_posts]. *)
Module short.

Definition G (k : Z) : globals :=
  {| en_embeddings := sample.store;
     ls_posts := ["sunny day"; "rainy day"];
     top_k := k |}.

End short.

(** * Facts *)

(** ** Binary64 arithmetic *)

Section Binary64.
Local Open Scope Z_scope.

Lemma shr_1_m mrs : 0 <= shr_m mrs -> shr_m (shr_1 mrs) = Z.div2 (shr_m mrs).
Proof.
  destruct mrs as [[|[p|p|]|p] r s]; simpl; intros H; try reflexivity; lia.
Qed.

Lemma shr_m_iter q : forall mrs, 0 <= shr_m mrs ->
  shr_m (SpecFloat.iter_pos shr_1 q mrs) = Z.shiftr (shr_m mrs) (Zpos q).
Proof.
  induction q as [q IH|q IH|]; intros mrs Hm; cbn [SpecFloat.iter_pos].
  - assert (H1 : 0 <= shr_m (shr_1 mrs)).
    { rewrite shr_1_m by done. apply Z.div2_nonneg; done. }
    assert (H2 : 0 <= shr_m (SpecFloat.iter_pos shr_1 q (shr_1 mrs))).
    { rewrite IH by done. apply Z.shiftr_nonneg; done. }
    rewrite IH, IH, shr_1_m by done.
    rewrite Z.div2_spec, !Z.shiftr_shiftr by lia. f_equal; lia.
  - assert (H2 : 0 <= shr_m (SpecFloat.iter_pos shr_1 q mrs)).
    { rewrite IH by done. apply Z.shiftr_nonneg; done. }
    rewrite IH, IH by done. rewrite Z.shiftr_shiftr by lia. f_equal; lia.
  - rewrite shr_1_m by done. apply Z.div2_spec.
Qed.

(** A number of [d] binary digits is at least [2^(d-1)]. *)
Lemma digits2_pos_lower p : 2 ^ (Zpos (digits2_pos p) - 1) <= Zpos p.
Proof.
  induction p as [p IH|p IH|]; cbn [digits2_pos]; [| |simpl; lia].
  all: rewrite Pos2Z.inj_succ.
  all: replace (Z.succ (Z.pos (digits2_pos p)) - 1)
         with (Z.succ (Z.pos (digits2_pos p) - 1)) by lia.
  all: rewrite Z.pow_succ_r by lia; lia.
Qed.

Lemma shr_record_of_loc_m m l : shr_m (shr_record_of_loc m l) = m.
Proof. destruct l as [|[]]; reflexivity. Qed.

(** Away from the subnormal range, shifting a positive mantissa to 53
    digits leaves it positive. *)
Lemma shr_fexp_pos m e l :
  0 < m -> -1000 <= e ->
  0 < shr_m (fst (shr_fexp prec emax m e l))
  /\ e <= snd (shr_fexp prec emax m e l).
Proof.
  intros Hm He. unfold shr_fexp, shr.
  destruct m as [|p|p]; try lia. cbn [Zdigits2].
  pose proof (digits2_pos_lower p) as Hd.
  set (d := Zpos (digits2_pos p)) in *.
  assert (Hd1 : 1 <= d) by (unfold d; lia).
  assert (Hf : fexp prec emax (d + e) - e = d - 53).
  { unfold fexp, emin, prec, emax. lia. }
  rewrite Hf.
  destruct (d - 53) as [|q|q] eqn:Hq; cbn [fst snd];
    rewrite ?shr_record_of_loc_m; try lia.
  rewrite shr_m_iter by (rewrite shr_record_of_loc_m; lia).
  rewrite shr_record_of_loc_m, Z.shiftr_div_pow2 by lia.
  split; [|lia].
  assert (2 ^ 52 <= Z.pos p / 2 ^ Z.pos q); [|lia].
  apply Z.div_le_lower_bound; [apply Z.pow_pos_nonneg; lia|].
  rewrite <- Z.pow_add_r by lia.
  replace (Z.pos q + 52) with (d - 1) by lia. done.
Qed.

Lemma round_nearest_even_pos m l : 0 < m -> 0 < round_nearest_even m l.
Proof.
  intros. unfold round_nearest_even.
  destruct l as [|[]]; try destruct (Z.even m); lia.
Qed.

Lemma binary_round_aux_pos m e l :
  0 < m -> -1000 <= e -> pos_nonzero (binary_round_aux prec emax false m e l).
Proof.
  intros Hm He. unfold binary_round_aux.
  pose proof (shr_fexp_pos m e l Hm He) as [H1 H2].
  destruct (shr_fexp prec emax m e l) as [mrs' e']. cbn [fst snd] in *.
  pose proof (round_nearest_even_pos _ (loc_of_shr_record mrs') H1) as H3.
  pose proof (shr_fexp_pos _ e' loc_Exact H3 ltac:(lia)) as [H4 H5].
  destruct (shr_fexp prec emax _ e' loc_Exact) as [mrs'' e''].
  cbn [fst snd] in *.
  destruct (shr_m mrs''); try lia.
  destruct (_ <=? _); exact I.
Qed.

(** A positive integer rounds to a positive binary64, or to infinity. *)
Lemma binary_round_pos p : pos_nonzero (binary_round prec emax false p 0).
Proof.
  unfold binary_round, shl_align.
  assert (Hf : -52 <= fexp prec emax (Z.pos (digits2_pos p) + 0)).
  { unfold fexp, emin, prec, emax. lia. }
  destruct (_ - 0); apply binary_round_aux_pos; lia.
Qed.

(** Zero divided by the length of a non-empty list is zero. *)
Lemma div_zero_float_of_int n :
  0 < n < 2 ^ 63 -> PrimFloat.div 0%float (np.float_of_int n) = 0%float.
Proof.
  intros Hn. apply Prim2SF_inj. rewrite FloatAxioms.div_spec.
  unfold np.float_of_int.
  rewrite FloatAxioms.of_uint63_spec, Uint63.of_Z_spec.
  rewrite Z.mod_small by (change wB with (2 ^ 63); lia).
  destruct n as [|p|p]; try lia. cbn [binary_normalize].
  pose proof (binary_round_pos p) as Hp.
  destruct (binary_round prec emax false p 0) as [s|[]| |[] m e]; done.
Qed.

(** The comparison of two binary64 values, read the other way round. *)
Lemma SFcompare_antisym x y :
  SFcompare y x = option_map CompOpp (SFcompare x y).
Proof.
  destruct x as [sx|sx| |sx mx ex], y as [sy|sy| |sy my ey]; simpl;
    try reflexivity; try (destruct sx; reflexivity);
    try (destruct sy; reflexivity);
    try (destruct sx, sy; reflexivity).
  destruct sx, sy; try reflexivity.
  all: f_equal; rewrite (Z.compare_antisym ex ey).
  all: destruct (ex ?= ey); simpl; try reflexivity.
  all: rewrite (Pos.compare_cont_antisym mx my Eq); simpl.
  all: try rewrite CompOpp_involutive; reflexivity.
Qed.

(** Of two numbers, neither NaN, the second is at most the first unless
    the first sorts before it. *)
Lemma npy_lt_false_leb a b :
  PrimFloat.eqb a a = true -> PrimFloat.eqb b b = true ->
  npy_lt a b = false -> PrimFloat.leb b a = true.
Proof.
  unfold npy_lt. intros Ha Hb H.
  apply orb_false_iff in H as [H _].
  rewrite FloatAxioms.eqb_spec in Ha, Hb.
  rewrite FloatAxioms.ltb_spec in H. rewrite FloatAxioms.leb_spec.
  unfold SFeqb, SFltb, SFleb in *.
  rewrite (SFcompare_antisym (Prim2SF a) (Prim2SF b)).
  destruct (Prim2SF a) as [sa|sa| |sa ma ea]; simpl in Ha; try discriminate Ha.
  all: destruct (Prim2SF b) as [sb|sb| |sb mb eb]; simpl in Hb;
    try discriminate Hb.
  all: destruct (SFcompare _ _) as [[]|] eqn:E; simpl in *;
    try reflexivity; try discriminate.
  all: destruct sa, sb; discriminate.
Qed.

Lemma npy_lt_spec a b : npy_lt a b = sf_lt (Prim2SF a) (Prim2SF b).
Proof.
  unfold npy_lt, sf_lt.
  by rewrite FloatAxioms.ltb_spec, !FloatAxioms.eqb_spec.
Qed.

(** Every comparison of exponents and mantissas, case by case. *)
Ltac compare_cases :=
  repeat match goal with
    | |- context [Z.compare ?a ?b] => destruct (Z.compare_spec a b)
    | H : context [Z.compare ?a ?b] |- _ => destruct (Z.compare_spec a b)
    | |- context [Pos.compare_cont Eq ?a ?b] =>
        change (Pos.compare_cont Eq a b) with (Pos.compare a b);
        destruct (Pos.compare_spec a b)
    | H : context [Pos.compare_cont Eq ?a ?b] |- _ =>
        change (Pos.compare_cont Eq a b) with (Pos.compare a b) in H;
        destruct (Pos.compare_spec a b)
    end.

Lemma sf_lt_asym x y : sf_lt x y = true -> sf_lt y x = false.
Proof.
  unfold sf_lt, SFltb, SFeqb.
  destruct x as [[]|[]| |[] mx ex], y as [[]|[]| |[] my ey]; cbn;
    try done; compare_cases; cbn; try done; lia.
Qed.

Lemma sf_lt_negtrans x y z :
  sf_lt x y = false -> sf_lt y z = false -> sf_lt x z = false.
Proof.
  unfold sf_lt, SFltb, SFeqb.
  destruct x as [[]|[]| |[] mx ex], y as [[]|[]| |[] my ey],
    z as [[]|[]| |[] mz ez]; cbn; try done.
  all: compare_cases; cbn; try done; try lia.
Qed.

(** NumPy's order is a strict weak order: it is asymmetric, and being not
    smaller is transitive. *)
Lemma npy_lt_asym a b : npy_lt a b = true -> npy_lt b a = false.
Proof. rewrite !npy_lt_spec. apply sf_lt_asym. Qed.

Lemma npy_lt_negtrans a b c :
  npy_lt a b = false -> npy_lt b c = false -> npy_lt a c = false.
Proof. rewrite !npy_lt_spec. apply sf_lt_negtrans. Qed.

End Binary64.

(** ** Arrays *)

Lemma zeros_length n : length (np.zeros n) = n.
Proof. apply length_replicate. Qed.

Lemma add_length a b : length b = length a -> length (np.add a b) = length a.
Proof. intros H. unfold np.add. rewrite length_zip_with. lia. Qed.

Lemma divide_length a n : length (np.divide a n) = length a.
Proof. apply length_map. Qed.

(** [+=] keeps the shape of its left operand. *)
Lemma iadd_length a b c : np.iadd a b = Ok c -> length c = length a.
Proof.
  unfold np.iadd. case_decide as Hlen.
  - intros [= <-]. by apply add_length.
  - destruct b as [|x [|? ?]]; intros [= <-]. apply length_map.
Qed.

Lemma iadd_same_length a b :
  length b = length a -> np.iadd a b = Ok (np.add a b).
Proof. intros H. unfold np.iadd. by rewrite decide_True. Qed.

Lemma add_zeros_zeros n : np.add (np.zeros n) (np.zeros n) = np.zeros n.
Proof.
  unfold np.zeros. induction n as [|n IH]; [done|]. cbn. f_equal. exact IH.
Qed.

Lemma divide_zeros n k :
  (0 < k < 2 ^ 63)%Z -> np.divide (np.zeros n) k = np.zeros n.
Proof.
  intros Hk. unfold np.zeros. induction n as [|n IH]; [done|].
  cbn. f_equal; [by apply div_zero_float_of_int|exact IH].
Qed.

(** [np.vstack] of rows of one length is the list of the rows. *)
Lemma vstack_rows d rows :
  rows <> [] -> Forall (fun r => length r = d) rows ->
  np.vstack rows = Ok rows.
Proof.
  intros Hne Hrows. destruct rows as [|r rs]; [done|].
  apply Forall_cons in Hrows as [Hr Hrs]. unfold np.vstack.
  replace (forallb _ rs) with true; [done|].
  symmetry. apply forallb_forall. intros x Hx.
  apply Nat.eqb_eq. rewrite Hr.
  rewrite Forall_forall in Hrs. apply Hrs. by apply list_elem_of_In.
Qed.

(** ** [compute_doc_embedding] *)

Lemma get_embedding_absent G token :
  en_embeddings G !! token = None -> get_embedding G token = np.zeros 300.
Proof. intros H. unfold get_embedding. by rewrite H. Qed.

Lemma get_embedding_length G token :
  store_wf (en_embeddings G) -> length (get_embedding G token) = 300.
Proof.
  intros Hwf. unfold get_embedding.
  destruct (en_embeddings G !! token) as [v|] eqn:E; cbn [from_option id].
  - exact (Hwf _ _ E).
  - apply zeros_length.
Qed.

Lemma embedding_step_length G post doc token doc' :
  embedding_step G post doc token = Ok doc' -> length doc' = length doc.
Proof.
  unfold embedding_step. destruct (np.iadd _ _) as [c|e] eqn:E; [|done].
  cbn. intros [= <-]. rewrite divide_length. by eapply iadd_length.
Qed.

Lemma embedding_loop_length G post tokens : forall doc r,
  embedding_loop G post doc tokens = Ok r -> length r = length doc.
Proof.
  induction tokens as [|token tokens IH]; intros doc r; cbn.
  - by intros [= <-].
  - destruct (embedding_step G post doc token) as [doc'|e] eqn:E; [|done].
    cbn. intros H. rewrite (IH _ _ H). by eapply embedding_step_length.
Qed.

(** A document embedding has 300 entries. *)
Lemma compute_doc_embedding_length G post r :
  compute_doc_embedding G post = Ok r -> length r = 300.
Proof.
  intros H. apply embedding_loop_length in H. by rewrite H, zeros_length.
Qed.

(** A token with an array of 300 entries, or with none, does not raise. *)
Lemma embedding_step_300 G post doc token :
  length doc = 300 -> length (get_embedding G token) = 300 ->
  embedding_step G post doc token
  = Ok (np.divide (np.add doc (get_embedding G token))
                  (Z.of_nat (length post))).
Proof.
  intros Hdoc Hget. unfold embedding_step.
  rewrite iadd_same_length by congruence. done.
Qed.

Lemma embedding_loop_fold G post tokens : forall doc,
  store_wf (en_embeddings G) -> length doc = 300 ->
  embedding_loop G post doc tokens
  = Ok (foldl (fun doc_embedding token =>
                 np.divide (np.add doc_embedding (get_embedding G token))
                           (Z.of_nat (length post)))
              doc tokens).
Proof.
  induction tokens as [|token tokens IH]; intros doc Hwf Hdoc; [done|].
  cbn [embedding_loop foldl].
  rewrite embedding_step_300 by (by try apply get_embedding_length).
  cbn. apply IH; [done|].
  rewrite divide_length, add_length; [done|].
  by rewrite get_embedding_length.
Qed.

(** The loop reads nothing of the globals but the table. *)
Lemma embedding_loop_table G1 G2 post tokens : forall doc,
  en_embeddings G1 = en_embeddings G2 ->
  embedding_loop G1 post doc tokens = embedding_loop G2 post doc tokens.
Proof.
  intros doc Heq. revert doc.
  induction tokens as [|token tokens IH]; intros doc; [done|].
  cbn. unfold embedding_step, get_embedding. rewrite Heq.
  destruct (np.iadd _ _); cbn; [apply IH|done].
Qed.

(** A token bound to the array of zeros counts as one with no array. *)
Lemma embedding_loop_set_zeros G token post tokens : forall doc,
  en_embeddings G !! token = None ->
  embedding_loop (set_embedding token (np.zeros 300) G) post doc tokens
  = embedding_loop G post doc tokens.
Proof.
  intros doc Habs. revert doc.
  induction tokens as [|t tokens IH]; intros doc; [done|].
  cbn. unfold embedding_step.
  replace (get_embedding (set_embedding token (np.zeros 300) G) t)
    with (get_embedding G t).
  - destruct (np.iadd _ _); cbn; [apply IH|done].
  - unfold get_embedding, set_embedding. cbn.
    destruct (decide (token = t)) as [->|Hne].
    + by rewrite lookup_insert_eq, Habs.
    + by rewrite lookup_insert_ne.
Qed.

Lemma embedding_loop_unknown G post tokens :
  (Z.of_nat (length post) < 2 ^ 63)%Z ->
  tokens `suffix_of` post ->
  Forall (fun token => en_embeddings G !! token = None) tokens ->
  embedding_loop G post (np.zeros 300) tokens = Ok (np.zeros 300).
Proof.
  intros Hlen. induction tokens as [|token tokens IH]; intros Hsuf Habs.
  { done. }
  apply Forall_cons in Habs as [Ht Habs].
  cbn [embedding_loop].
  rewrite embedding_step_300
    by (rewrite ?get_embedding_absent by done; apply zeros_length).
  rewrite get_embedding_absent, add_zeros_zeros by done.
  assert (0 < length post).
  { apply suffix_length in Hsuf. cbn in Hsuf. lia. }
  rewrite divide_zeros by lia. cbn.
  apply IH; [|done]. by eapply suffix_cons_l.
Qed.

Lemma lookup_map {A B} (f : A -> B) (l : list A) j :
  map f l !! j = f <$> l !! j.
Proof.
  revert j. induction l as [|a l IH]; intros [|j]; cbn; done.
Qed.

Lemma divide_add_lookup a b n j x y :
  a !! j = Some x -> b !! j = Some y ->
  np.divide (np.add a b) n !! j
  = Some (PrimFloat.div (PrimFloat.add x y) (np.float_of_int n)).
Proof.
  intros Ha Hb. unfold np.divide, np.add.
  rewrite lookup_map, lookup_zip_with, Ha. cbn. by rewrite Hb.
Qed.

Lemma item_lookup (v : list float) j : j < length v -> v !! j = Some (item v j).
Proof.
  intros Hj. unfold item.
  by destruct (lookup_lt_is_Some_2 v j Hj) as [x ->].
Qed.

(** Entry by entry, the fold over arrays is the fold over numbers. *)
Lemma encode_fold_entry G n j tokens : forall doc,
  store_wf (en_embeddings G) -> length doc = 300 -> j < 300 ->
  foldl (fun doc_embedding token =>
           np.divide (np.add doc_embedding (get_embedding G token)) n)
        doc tokens !! j
  = Some (foldl (fun x token =>
                   PrimFloat.div
                     (PrimFloat.add x (item (get_embedding G token) j))
                     (np.float_of_int n))
                (item doc j) tokens).
Proof.
  induction tokens as [|token tokens IH]; intros doc Hwf Hdoc Hj.
  { cbn. apply item_lookup. lia. }
  cbn [foldl]. pose proof (get_embedding_length G token Hwf) as Hget.
  rewrite IH; [|done| |done].
  2:{ rewrite divide_length, add_length; [done|congruence]. }
  do 2 f_equal. unfold item at 1.
  by erewrite divide_add_lookup by (apply item_lookup; lia).
Qed.

(** C1, as amended.  For every document and every table whose arrays all
    have 300 entries, [compute_doc_embedding] goes through the tokens in
    document order, adds the array of each token that has one (and the array
    of zeros for a token that has none) to the running sum and, after each
    addition, divides the running sum by [len(post)], the number of tokens
    of the whole document; it raises nothing, its result has 300 entries,
    and each entry follows the recurrence [x := (x + e) / len(post)], in
    which what an earlier token added is divided again at every later
    token. *)
Theorem compute_doc_embedding_whole_length G post :
  store_wf (en_embeddings G) ->
  compute_doc_embedding G post = Ok (encode_whole_length G post)
  /\ length (encode_whole_length G post) = 300
  /\ forall j, j < 300 ->
       encode_whole_length G post !! j = Some (entry_recurrence G post j).
Proof.
  intros Hwf.
  assert (H : compute_doc_embedding G post = Ok (encode_whole_length G post)).
  { apply embedding_loop_fold; [done|apply zeros_length]. }
  split; [done|]. split; [by eapply compute_doc_embedding_length|].
  intros j Hj. unfold encode_whole_length, entry_recurrence.
  rewrite encode_fold_entry by (done || apply zeros_length).
  do 2 f_equal. unfold item, np.zeros.
  by rewrite lookup_replicate_2.
Qed.

Lemma sample_store_wf : store_wf sample.store.
Proof.
  unfold sample.store.
  repeat (apply map_Forall_insert_2; [reflexivity|]).
  apply map_Forall_empty.
Qed.

Lemma compute_doc_embedding_whole_length_witness :
  compute_doc_embedding (sample.G 2) ["sunny"; "day"]
  = Ok (encode_whole_length (sample.G 2) ["sunny"; "day"])
  /\ length (encode_whole_length (sample.G 2) ["sunny"; "day"]) = 300
  /\ forall j, j < 300 ->
       encode_whole_length (sample.G 2) ["sunny"; "day"] !! j
       = Some (entry_recurrence (sample.G 2) ["sunny"; "day"] j).
Proof.
  apply (compute_doc_embedding_whole_length (sample.G 2) ["sunny"; "day"]).
  exact sample_store_wf.
Defined.

(** C1, refuted as stated.  On the post [sunny day] the code divides by 2
    after each of the two tokens and returns 0.5 everywhere; dividing by the
    number of tokens processed so far, 1 and then 2, gives 1. *)
Lemma compute_doc_embedding_not_processed_so_far :
  compute_doc_embedding (sample.G 2) ["sunny"; "day"]
  = Ok (replicate 300 0.5%float)
  /\ encode_processed_so_far (sample.G 2) ["sunny"; "day"]
     = Ok (replicate 300 1%float)
  /\ compute_doc_embedding (sample.G 2) ["sunny"; "day"]
     <> encode_processed_so_far (sample.G 2) ["sunny"; "day"].
Proof.
  assert (H1 : compute_doc_embedding (sample.G 2) ["sunny"; "day"]
               = Ok (replicate 300 0.5%float)) by (vm_compute; reflexivity).
  assert (H2 : encode_processed_so_far (sample.G 2) ["sunny"; "day"]
               = Ok (replicate 300 1%float)) by (vm_compute; reflexivity).
  split; [exact H1|]. split; [exact H2|].
  rewrite H1, H2. intros H.
  apply (f_equal (fun r => match r with
                           | Ok (x :: _) => PrimFloat.eqb x 1
                           | _ => true
                           end)) in H.
  vm_compute in H. discriminate H.
Qed.

(** C5.  For every table, the embedding of the empty document is the array
    of 300 zeros: the loop body, where the division is, does not run, and
    nothing is raised. *)
Theorem compute_doc_embedding_empty G :
  compute_doc_embedding G [] = Ok (np.zeros 300)
  /\ length (np.zeros 300) = 300
  /\ Forall (fun x => x = 0%float) (np.zeros 300).
Proof.
  split; [reflexivity|]. split; [apply zeros_length|].
  apply Forall_replicate. reflexivity.
Qed.

(** C6.  A token with no array in the table raises nothing and adds the
    array of zeros to the running sum, exactly as if the table bound it to
    zeros; and a document all of whose tokens have no array is embedded as the
    array of 300 zeros, none of which is NaN.  (A Python list has fewer than
    [2^63] items.) *)
Theorem unknown_tokens_contribute_zero G post :
  (forall token doc,
      en_embeddings G !! token = None -> length doc = 300 ->
      embedding_step G post doc token
      = Ok (np.divide (np.add doc (np.zeros 300)) (Z.of_nat (length post))))
  /\ (forall token,
      en_embeddings G !! token = None ->
      compute_doc_embedding (set_embedding token (np.zeros 300) G) post
      = compute_doc_embedding G post)
  /\ ((Z.of_nat (length post) < 2 ^ 63)%Z ->
      Forall (fun token => en_embeddings G !! token = None) post ->
      compute_doc_embedding G post = Ok (np.zeros 300))
  /\ no_nan (np.zeros 300) = true.
Proof.
  split; [|split; [|split; [|by vm_compute]]].
  - intros token doc Habs Hdoc.
    rewrite <- (get_embedding_absent G token Habs).
    apply embedding_step_300; [done|].
    rewrite get_embedding_absent by done. apply zeros_length.
  - intros token Habs. by apply embedding_loop_set_zeros.
  - intros Hlen Habs. by apply embedding_loop_unknown.
Qed.

Lemma unknown_tokens_contribute_zero_witness :
  compute_doc_embedding (sample.G 2) ["windy"; "day"] = Ok (np.zeros 300).
Proof.
  apply (proj1 (proj2 (proj2 (unknown_tokens_contribute_zero
                                (sample.G 2) ["windy"; "day"])))).
  - cbn. lia.
  - repeat constructor.
Defined.

(** ** [vectorize_posts] *)

Lemma vp_init_inv : vp_inv vp_init.
Proof. split; cbn; done. Qed.

(** What one turn of the loop does to the local names. *)
Lemma vp_step_ok G st post e :
  vp_inv st -> compute_doc_embedding G post = Ok e ->
  vp_step G st post
  = Ok {| ind2Doc_dict := <[i st := e]> (ind2Doc_dict st);
          document_vec_l := document_vec_l st ++ [e];
          i := S (i st);
          document_vec_matrix := Some (document_vec_l st ++ [e]) |}.
Proof.
  intros Hinv He. unfold vp_step. rewrite He. cbn.
  rewrite (vstack_rows 300); [done| |].
  - by destruct (document_vec_l st).
  - apply Forall_app. split; [apply Hinv|].
    apply Forall_singleton. by eapply compute_doc_embedding_length.
Qed.

Lemma vp_step_inv G st post st' :
  vp_inv st -> vp_step G st post = Ok st' ->
  vp_inv st' /\ document_vec_l st' <> []
  /\ length (document_vec_l st') = S (length (document_vec_l st)).
Proof.
  intros Hinv Hstep.
  destruct (compute_doc_embedding G post) as [e|x] eqn:He.
  2:{ unfold vp_step in Hstep. by rewrite He in Hstep. }
  rewrite (vp_step_ok _ _ _ _ Hinv He) in Hstep.
  injection Hstep as <-. destruct Hinv as [Hi Hrows Hdict Hm].
  assert (Hne : document_vec_l st ++ [e] <> []) by (by destruct (document_vec_l st)).
  split; [split; cbn|split; cbn]; try done.
  - rewrite length_app. cbn. lia.
  - apply Forall_app. split; [done|].
    apply Forall_singleton. by eapply compute_doc_embedding_length.
  - intros j. rewrite Hi. destruct (decide (j = length (document_vec_l st))) as [->|Hne'].
    + rewrite lookup_insert_eq. symmetry. apply list_lookup_middle. done.
    + rewrite lookup_insert_ne by done. rewrite Hdict.
      destruct (decide (j < length (document_vec_l st))).
      * by rewrite lookup_app_l.
      * rewrite !lookup_ge_None_2; [done| |lia].
        rewrite length_app. cbn. lia.
  - rewrite length_app. cbn. lia.
Qed.

Lemma vp_loop_inv G posts : forall st st',
  vp_inv st -> vp_loop G st posts = Ok st' ->
  vp_inv st'
  /\ length (document_vec_l st')
     = length (document_vec_l st) + length posts
  /\ (posts <> [] -> document_vec_l st' <> []).
Proof.
  induction posts as [|post posts IH]; intros st st' Hinv; cbn.
  - intros [= <-]. split; [done|]. split; [lia|done].
  - destruct (vp_step G st post) as [st1|x] eqn:Hstep; [|done]. cbn.
    intros Hloop.
    destruct (vp_step_inv _ _ _ _ Hinv Hstep) as (Hinv1 & Hne1 & Hlen1).
    destruct (IH _ _ Hinv1 Hloop) as (Hinv' & Hlen' & _).
    split; [done|]. split; [lia|].
    intros _ Hnil. rewrite Hnil in Hlen'. cbn in Hlen'. lia.
Qed.

(** With arrays of 300 entries in the table the loop raises nothing. *)
Lemma vp_loop_total G posts : forall st,
  store_wf (en_embeddings G) -> vp_inv st -> is_Ok (vp_loop G st posts).
Proof.
  induction posts as [|post posts IH]; intros st Hwf Hinv; cbn.
  - by eexists.
  - pose proof (embedding_loop_fold G post post (np.zeros 300) Hwf
                  (zeros_length 300)) as He.
    pose proof (vp_step_ok _ _ _ _ Hinv He) as Hstep.
    rewrite Hstep. cbn. apply IH; [done|].
    apply (vp_step_inv _ _ _ _ Hinv Hstep).
Qed.

Lemma vp_loop_table G1 G2 posts : forall st,
  en_embeddings G1 = en_embeddings G2 ->
  vp_loop G1 st posts = vp_loop G2 st posts.
Proof.
  intros st Heq. revert st.
  induction posts as [|post posts IH]; intros st; [done|].
  cbn. unfold vp_step, compute_doc_embedding.
  rewrite (embedding_loop_table G1 G2) by done.
  destruct (embedding_loop G2 _ _ _); cbn; [|done].
  destruct (np.vstack _); cbn; [apply IH|done].
Qed.

(** C3, on the code.  With no post at all the loop body never runs,
    [document_vec_matrix] is never bound and the [return] raises
    [UnboundLocalError]: no matrix of zero rows is returned. *)
Theorem vectorize_posts_no_posts G en_embeddings_arg :
  vectorize_posts G [] en_embeddings_arg = Raise UnboundLocalError.
Proof. reflexivity. Qed.

(** C9.  Two runs of [vectorize_posts] over the same posts, with the same
    table in the global [en_embeddings], return the same matrix and the same
    dictionary, whatever else differs between the two states. *)
Theorem vectorize_posts_deterministic G1 G2 posts arg1 arg2 :
  en_embeddings G1 = en_embeddings G2 ->
  vectorize_posts G1 posts arg1 = vectorize_posts G2 posts arg2.
Proof.
  intros Heq. unfold vectorize_posts. by rewrite (vp_loop_table G1 G2).
Qed.

Lemma vectorize_posts_deterministic_witness :
  vectorize_posts (sample.G 2) sample.posts sample.store
  = vectorize_posts (sample.G 5) sample.posts ∅.
Proof.
  apply (vectorize_posts_deterministic (sample.G 2) (sample.G 5)).
  reflexivity.
Defined.

(** C10.  For a sequence of N posts, N at least one, a table whose arrays
    have 300 entries makes [vectorize_posts] return, and whatever it returns,
    the matrix has N rows, the dictionary has exactly the keys 0..N-1, and
    its entry at every index is the row of the matrix at that index. *)
Theorem vectorize_posts_consistent G posts en_embeddings_arg :
  posts <> [] ->
  (store_wf (en_embeddings G) ->
   is_Ok (vectorize_posts G posts en_embeddings_arg))
  /\ forall (m : matrix) (d : gmap nat ndarray),
      vectorize_posts G posts en_embeddings_arg = Ok (m, d) ->
      length m = length posts
      /\ dom d = set_seq 0 (length posts)
      /\ forall j, d !! j = m !! j.
Proof.
  intros Hne. unfold vectorize_posts. split.
  - intros Hwf.
    destruct (vp_loop_total G posts vp_init Hwf vp_init_inv) as [st Hst].
    rewrite Hst. cbn.
    destruct (vp_loop_inv _ _ _ _ vp_init_inv Hst) as ([_ _ _ Hm] & _ & Hnil).
    destruct (document_vec_matrix st); [by eexists|].
    by destruct (Hnil Hne).
  - intros m d.
    destruct (vp_loop G vp_init posts) as [st|x] eqn:Hst; [|done]. cbn.
    destruct (vp_loop_inv _ _ _ _ vp_init_inv Hst)
      as ([_ _ Hdict Hm] & Hlen & _).
    destruct (document_vec_matrix st) as [m'|]; [|done].
    intros [= <- <-]. destruct Hm as [-> _]. cbn in Hlen.
    split; [done|]. split; [|done].
    apply set_eq. intros j.
    rewrite elem_of_dom, elem_of_set_seq, Hdict, <- Hlen.
    rewrite lookup_lt_is_Some. lia.
Qed.

Lemma vectorize_posts_consistent_witness :
  length sample.posts_vec_matrix = 3
  /\ exists d, vectorize_posts (sample.G 2) sample.posts sample.store
               = Ok (sample.posts_vec_matrix, d)
               /\ dom d = set_seq 0 3
               /\ forall j, d !! j = sample.posts_vec_matrix !! j.
Proof.
  assert (Hne : sample.posts <> []) by discriminate.
  destruct (vectorize_posts (sample.G 2) sample.posts sample.store)
    as [[m d]|x] eqn:E; [|vm_compute in E; discriminate E].
  assert (Hm : m = sample.posts_vec_matrix).
  { vm_compute in E. injection E as <- _. reflexivity. }
  subst m. split; [reflexivity|]. exists d. split; [reflexivity|].
  exact (proj2 (proj2 (vectorize_posts_consistent
                         (sample.G 2) sample.posts sample.store Hne)
                      _ _ E)).
Defined.

(** ** Lists in order *)

Section Pairwise.
Context {A : Type}.
Implicit Types (R : A -> A -> bool) (l : list A).

Lemma forallb_reverse (f : A -> bool) l : forallb f (reverse l) = forallb f l.
Proof.
  induction l as [|a l IH]; [done|].
  rewrite reverse_cons, forallb_app, IH. cbn. by destruct (f a), (forallb f l).
Qed.

Lemma forallb_pointwise (f g : A -> bool) l :
  (forall x, f x = g x) -> forallb f l = forallb g l.
Proof.
  intros Hfg. induction l as [|a l IH]; [done|]. cbn. by rewrite Hfg, IH.
Qed.

Lemma pairwise_app R l1 l2 :
  pairwise R (l1 ++ l2)
  = pairwise R l1 && pairwise R l2
    && forallb (fun a => forallb (R a) l2) l1.
Proof.
  induction l1 as [|a l1 IH]; cbn.
  - by rewrite andb_true_r.
  - rewrite forallb_app, IH.
    destruct (forallb (R a) l1), (pairwise R l1), (pairwise R l2),
      (forallb (R a) l2); reflexivity.
Qed.

Lemma pairwise_reverse R l :
  pairwise R (reverse l) = pairwise (fun a b => R b a) l.
Proof.
  induction l as [|a l IH]; [done|].
  rewrite reverse_cons, pairwise_app, IH, forallb_reverse. cbn.
  rewrite andb_true_r, andb_comm. f_equal.
  apply forallb_pointwise. intros x. apply andb_true_r.
Qed.

Lemma pairwise_drop R n l : pairwise R l = true -> pairwise R (drop n l) = true.
Proof.
  rewrite <- (take_drop n l) at 1. rewrite pairwise_app.
  intros H. apply andb_true_iff in H as [H _].
  by apply andb_true_iff in H as [_ H].
Qed.

(** A weaker relation that holds between the members of [l]. *)
Lemma pairwise_impl R R' l :
  (forall a b, a ∈ l -> b ∈ l -> R a b = true -> R' a b = true) ->
  pairwise R l = true -> pairwise R' l = true.
Proof.
  induction l as [|a l IH]; [done|]. cbn. intros Himpl H.
  apply andb_true_iff in H as [Ha Hl]. apply andb_true_iff. split.
  - rewrite forallb_forall in Ha. apply forallb_forall. intros b Hb.
    apply Himpl; [left|right; by apply list_elem_of_In|by apply Ha].
  - apply IH; [|done]. intros x y Hx Hy. apply Himpl; by right.
Qed.

End Pairwise.

(** ** Slices *)

(** [l[-k:]] for a positive [k]: the last [k] entries, all when there are
    fewer. *)
Lemma slice_from_last {A} (l : list A) (k : Z) :
  (0 < k)%Z -> slice_from l (- k) = drop (length l - Z.to_nat k) l.
Proof.
  intros Hk. unfold slice_from.
  destruct (Z.ltb_spec (- k) 0); [|lia]. f_equal. lia.
Qed.

(** [l[-k:]] for a [k] that is not positive is [l[|k|:]]: all but the first
    [|k|] entries, all of them for [k = 0]. *)
Lemma slice_from_nonpositive {A} (l : list A) (k : Z) :
  (k <= 0)%Z -> slice_from l (- k) = drop (Z.to_nat (- k)) l.
Proof.
  intros Hk. unfold slice_from.
  destruct (Z.ltb_spec (- k) 0); [lia|].
  destruct (Z.min_spec (- k) (Z.of_nat (length l))) as [[_ ->]|[Hge ->]].
  - done.
  - rewrite Nat2Z.id, !drop_ge; [done|lia|lia].
Qed.

(** A slice from some index onward is the list without a prefix. *)
Lemma slice_from_drop {A} (l : list A) (start : Z) :
  exists n, slice_from l start = drop n l.
Proof. unfold slice_from. by eexists. Qed.

(** ** The ranking *)

Lemma cosine_similarity_length m q : length (cosine_similarity m q) = length m.
Proof. apply length_map. Qed.

Lemma is_argsort_length v idx : is_argsort v idx = true -> length idx = length v.
Proof.
  unfold is_argsort. rewrite !andb_true_iff, Nat.eqb_eq. tauto.
Qed.

Lemma is_argsort_ascending v idx :
  is_argsort v idx = true -> ascending v idx = true.
Proof. unfold is_argsort. rewrite !andb_true_iff. tauto. Qed.

Lemma is_argsort_in_range v idx a :
  is_argsort v idx = true -> a ∈ idx -> a < length v.
Proof.
  unfold is_argsort. rewrite !andb_true_iff, forallb_forall.
  intros [[[_ H] _] _] Ha. apply Nat.ltb_lt, H. by apply list_elem_of_In.
Qed.

(** An entry of an array without NaN is not NaN. *)
Lemma no_nan_score_at v a :
  no_nan v = true -> a < length v ->
  PrimFloat.eqb (item v a) (item v a) = true.
Proof.
  unfold no_nan, item. rewrite forallb_forall. intros Hv Ha.
  destruct (lookup_lt_is_Some_2 v a Ha) as [x Hx]. rewrite Hx. cbn.
  apply Hv. eapply list_elem_of_In, list_elem_of_lookup_2. exact Hx.
Qed.

Section RankingFacts.
Variable argsort : list float -> list nat.

Lemma top_indices_suffix v k :
  exists n, top_indices argsort v k = reverse (drop n (argsort v)).
Proof.
  unfold top_indices. destruct (slice_from_drop (argsort v) (- k)) as [n ->].
  by exists n.
Qed.

Lemma top_indices_descending v k :
  ascending v (argsort v) = true ->
  descending v (top_indices argsort v k) = true.
Proof.
  intros Hasc. destruct (top_indices_suffix v k) as [n ->].
  unfold descending. rewrite pairwise_reverse. by apply pairwise_drop.
Qed.

Lemma top_indices_elem_of v k a :
  a ∈ top_indices argsort v k -> a ∈ argsort v.
Proof.
  destruct (top_indices_suffix v k) as [n ->].
  rewrite elem_of_reverse. intros Ha.
  rewrite <- (take_drop n (argsort v)). apply elem_of_app. by right.
Qed.

Lemma top_indices_length v k :
  (0 < k)%Z ->
  length (top_indices argsort v k)
  = Nat.min (Z.to_nat k) (length (argsort v)).
Proof.
  intros Hk. unfold top_indices.
  rewrite length_reverse, slice_from_last, length_drop by done. lia.
Qed.

End RankingFacts.

(** ** The insertion sort *)

Section Insertion.
Variable v : list float.

Lemma insert_index_perm x l : insert_index v x l ≡ₚ x :: l.
Proof.
  induction l as [|pk rest IH]; [done|]. cbn.
  destruct (npy_lt _ _); [|done].
  rewrite IH. apply Permutation_swap.
Qed.

(** Inserting an index higher than all those listed keeps the list
    descending, with the higher index first among equal entries. *)
Lemma insert_index_stable x l :
  Forall (fun e => e < x) l ->
  pairwise (before_stable v) l = true ->
  pairwise (before_stable v) (insert_index v x l) = true.
Proof.
  induction l as [|pk rest IH]; [done|].
  intros Hlt Hl. apply Forall_cons in Hlt as [Hpk Hrest].
  cbn in Hl. apply andb_true_iff in Hl as [Hhead Htail].
  rewrite forallb_forall in Hhead.
  cbn [insert_index]. destruct (npy_lt (item v x) (item v pk)) eqn:E.
  - cbn. apply andb_true_iff. split; [|by apply IH].
    apply forallb_forall. intros e He.
    apply list_elem_of_In in He. rewrite insert_index_perm in He.
    apply elem_of_cons in He as [->|He].
    + unfold before_stable. by rewrite (npy_lt_asym _ _ E), E.
    + by apply Hhead, list_elem_of_In.
  - cbn [pairwise]. apply andb_true_iff. split.
    2:{ cbn. apply andb_true_iff. split; [|done]. by apply forallb_forall. }
    apply forallb_forall. intros e He.
    apply list_elem_of_In, elem_of_cons in He as [->|He].
    + unfold before_stable. rewrite E. cbn.
      apply orb_true_iff. right. by apply Nat.ltb_lt.
    + unfold before_stable.
      pose proof (Hhead e ltac:(by apply list_elem_of_In)) as Hpe.
      unfold before_stable in Hpe. apply andb_true_iff in Hpe as [Hpe _].
      apply negb_true_iff in Hpe.
      rewrite (npy_lt_negtrans _ _ _ E Hpe). cbn.
      apply orb_true_iff. right. apply Nat.ltb_lt.
      rewrite Forall_forall in Hrest. by apply Hrest.
Qed.

(** After the indices below [n]: a permutation of them, in that order. *)
Lemma insertion_fold n :
  let l := foldl (fun sorted_rev vi => insert_index v vi sorted_rev) []
                 (seq 0 n) in
  l ≡ₚ seq 0 n /\ pairwise (before_stable v) l = true.
Proof.
  induction n as [|n [Hperm Hst]]; [done|].
  rewrite seq_S, foldl_app. cbn [foldl]. cbn [Nat.add]. split.
  - rewrite insert_index_perm, Hperm. by rewrite Permutation_app_comm.
  - apply insert_index_stable; [|done].
    rewrite Hperm. apply Forall_forall. intros e He.
    apply elem_of_seq in He. lia.
Qed.

End Insertion.

Lemma insertion_argsort_perm v : insertion_argsort v ≡ₚ seq 0 (length v).
Proof.
  unfold insertion_argsort. rewrite reverse_Permutation.
  apply insertion_fold.
Qed.

(** The insertion sort is an [argsort], on every array. *)
Lemma insertion_argsort_is_argsort v :
  is_argsort v (insertion_argsort v) = true.
Proof.
  pose proof (insertion_argsort_perm v) as Hperm.
  unfold is_argsort. repeat (apply andb_true_iff; split).
  - apply Nat.eqb_eq. by rewrite Hperm, length_seq.
  - apply forallb_forall. intros a Ha. apply Nat.ltb_lt.
    apply list_elem_of_In in Ha. rewrite Hperm in Ha.
    apply elem_of_seq in Ha. lia.
  - apply bool_decide_eq_true. rewrite Hperm. apply NoDup_seq.
  - unfold ascending, insertion_argsort. rewrite pairwise_reverse.
    destruct (insertion_fold v (length v)) as [_ Hst]. revert Hst.
    apply pairwise_impl. intros a b _ _ Hab.
    unfold before_stable in Hab. by apply andb_true_iff in Hab as [Hab _].
Qed.

(** Ranked after the insertion sort, entries of equal score come with the
    higher index first, for every array of scores and every [k].  This is a
    fact of the insertion sort, not of every sort that [np.argsort] may
    run. *)
Lemma top_indices_insertion_stable v k :
  descending_ties_by_higher_index v (top_indices insertion_argsort v k)
  = true.
Proof.
  destruct (top_indices_suffix insertion_argsort v k) as [n ->].
  unfold descending_ties_by_higher_index, insertion_argsort.
  rewrite pairwise_reverse. apply pairwise_drop. rewrite pairwise_reverse.
  apply (insertion_fold v (length v)).
Qed.

(** The sample matrix and query embedding are what the code computes. *)
Lemma sample_embeddings :
  fst <$> (match vectorize_posts (sample.G 2) sample.posts sample.store with
           | Ok r => Some r
           | Raise _ => None
           end)
  = Some sample.posts_vec_matrix
  /\ compute_doc_embedding (sample.G 2) ["sunny"] = Ok sample.query_embedding.
Proof. split; by vm_compute. Qed.

(** C2, as amended.  For every matrix, query embedding and [k], when
    [np.argsort] returns the indices in ascending order of score, the ranked
    sequence is in descending order of score (NumPy's order, NaN highest;
    with no NaN among the scores, [<=] of [float64]): no entry has a greater
    score than one before it.  The ranked sequence is the end of the result
    of [np.argsort] read backwards: entries of equal score come in the
    reverse of the order [np.argsort] gave them, whatever that order is, and
    nothing orders them by index. *)
Theorem rank_descending argsort posts_vec_matrix query_embedding k :
  let cosine_score := cosine_similarity posts_vec_matrix query_embedding in
  let ranked := rank argsort posts_vec_matrix query_embedding k in
  is_argsort cosine_score (argsort cosine_score) = true ->
  descending cosine_score ranked = true
  /\ (no_nan cosine_score = true -> non_increasing cosine_score ranked = true)
  /\ exists dropped, argsort cosine_score = dropped ++ reverse ranked.
Proof.
  intros v ranked Hsort. subst ranked. unfold rank. fold v.
  pose proof (top_indices_descending argsort v k
                (is_argsort_ascending _ _ Hsort)) as Hdesc.
  split; [exact Hdesc|]. split.
  - intros Hnan. revert Hdesc. unfold descending, non_increasing.
    apply pairwise_impl. intros a b Ha Hb Hab.
    apply negb_true_iff in Hab.
    apply top_indices_elem_of in Ha, Hb.
    apply npy_lt_false_leb; [| |exact Hab].
    all: apply no_nan_score_at; [done|by eapply is_argsort_in_range].
  - destruct (top_indices_suffix argsort v k) as [n ->].
    exists (take n (argsort v)). by rewrite reverse_involutive, take_drop.
Qed.

Lemma rank_descending_witness :
  descending sample.cosine_score
    (rank insertion_argsort sample.posts_vec_matrix sample.query_embedding 3)
  = true
  /\ (no_nan sample.cosine_score = true ->
      non_increasing sample.cosine_score
        (rank insertion_argsort sample.posts_vec_matrix
              sample.query_embedding 3)
      = true)
  /\ exists dropped,
      insertion_argsort sample.cosine_score
      = dropped ++ reverse (rank insertion_argsort sample.posts_vec_matrix
                                 sample.query_embedding 3).
Proof.
  exact (rank_descending insertion_argsort sample.posts_vec_matrix
           sample.query_embedding 3 (insertion_argsort_is_argsort _)).
Defined.

(** The ranking at the witness has all three posts, the two of equal score
    before the one of lower score. *)
Lemma sample_rank_3 :
  rank insertion_argsort sample.posts_vec_matrix sample.query_embedding 3
  = [2; 0; 1]
  /\ PrimFloat.ltb (item sample.cosine_score 1) (item sample.cosine_score 0)
     = true.
Proof. vm_compute. done. Qed.

(** The order among equal scores is open.  Both [[1; 0; 2]] and [[1; 2; 0]]
    list the three sample scores in ascending order, so [np.argsort] may
    return either; ranked for [k = 2], the first gives the two posts of
    equal score as [[2; 0]], the second as [[0; 2]]. *)
Lemma rank_tie_order_open :
  is_argsort sample.cosine_score [1; 0; 2] = true
  /\ rank (fun _ => [1; 0; 2]) sample.posts_vec_matrix
          sample.query_embedding 2 = [2; 0]
  /\ is_argsort sample.cosine_score [1; 2; 0] = true
  /\ rank (fun _ => [1; 2; 0]) sample.posts_vec_matrix
          sample.query_embedding 2 = [0; 2].
Proof. vm_compute. done. Qed.

(** C2, refuted as stated.  The first and the last of the three posts have
    the same score; ranked for [k = 2], the last post, index 2, comes before
    the first, index 0. *)
Lemma rank_ties_not_by_index :
  rank insertion_argsort sample.posts_vec_matrix sample.query_embedding 2
  = [2; 0]
  /\ PrimFloat.eqb (item sample.cosine_score 2)
                   (item sample.cosine_score 0) = true
  /\ non_increasing_ties_by_index sample.cosine_score
       (rank insertion_argsort sample.posts_vec_matrix
             sample.query_embedding 2)
     = false.
Proof. vm_compute. done. Qed.

(** C4, as amended.  For every matrix and query embedding, ranking with
    [k <= 0] raises nothing: it returns the result of [np.argsort] without
    its first [|k|] entries, read backwards, that is [max (N - |k|) 0]
    entries, and all N of them for [k = 0]. *)
Theorem rank_nonpositive_k argsort posts_vec_matrix query_embedding k :
  let cosine_score := cosine_similarity posts_vec_matrix query_embedding in
  (k <= 0)%Z ->
  is_argsort cosine_score (argsort cosine_score) = true ->
  rank argsort posts_vec_matrix query_embedding k
  = reverse (drop (Z.to_nat (- k)) (argsort cosine_score))
  /\ length (rank argsort posts_vec_matrix query_embedding k)
     = length posts_vec_matrix - Z.to_nat (- k).
Proof.
  intros v Hk Hsort. unfold rank, top_indices. fold v.
  rewrite slice_from_nonpositive by done. split; [done|].
  rewrite length_reverse, length_drop, (is_argsort_length _ _ Hsort).
  unfold v. by rewrite cosine_similarity_length.
Qed.

Lemma rank_nonpositive_k_witness :
  rank insertion_argsort sample.posts_vec_matrix sample.query_embedding 0
  = reverse (drop 0 (insertion_argsort sample.cosine_score))
  /\ length (rank insertion_argsort sample.posts_vec_matrix
                  sample.query_embedding 0)
     = 3 - 0.
Proof.
  apply (rank_nonpositive_k insertion_argsort sample.posts_vec_matrix
           sample.query_embedding 0).
  - lia.
  - apply insertion_argsort_is_argsort.
Defined.

(** C4, refuted as stated.  With [k = 0] the ranking of the three posts
    returns all three indices, and with [k = -1] the best two; the query cell
    run with [top-k = 0] raises nothing and lists all three posts. *)
Lemma rank_zero_k_returns_all :
  rank insertion_argsort sample.posts_vec_matrix sample.query_embedding 0
  = [2; 0; 1]
  /\ rank insertion_argsort sample.posts_vec_matrix
          sample.query_embedding (-1)
     = [2; 0]
  /\ exists top_posts,
      query_top_posts insertion_argsort sample.str_float (sample.G 0)
        sample.posts_vec_matrix ["sunny"]
      = Ok top_posts
      /\ map post_ID top_posts = ["2"; "0"; "1"].
Proof.
  split; [by vm_compute|]. split; [by vm_compute|].
  eexists. split; [vm_compute; reflexivity|]. reflexivity.
Qed.

(** C7.  For every matrix of N rows, query embedding and positive [k], the
    ranking has exactly [min k N] entries, and so exactly N when [k >= N]. *)
Theorem rank_length argsort posts_vec_matrix query_embedding k :
  let cosine_score := cosine_similarity posts_vec_matrix query_embedding in
  (0 < k)%Z ->
  is_argsort cosine_score (argsort cosine_score) = true ->
  Z.of_nat (length (rank argsort posts_vec_matrix query_embedding k))
  = Z.min k (Z.of_nat (length posts_vec_matrix))
  /\ ((Z.of_nat (length posts_vec_matrix) <= k)%Z ->
      length (rank argsort posts_vec_matrix query_embedding k)
      = length posts_vec_matrix).
Proof.
  intros v Hk Hsort. unfold rank. fold v.
  rewrite top_indices_length, (is_argsort_length _ _ Hsort) by done.
  unfold v. rewrite cosine_similarity_length. lia.
Qed.

Lemma rank_length_witness :
  Z.of_nat (length (rank insertion_argsort sample.posts_vec_matrix
                         sample.query_embedding 7))
  = Z.min 7 (Z.of_nat 3)
  /\ ((Z.of_nat 3 <= 7)%Z ->
      length (rank insertion_argsort sample.posts_vec_matrix
                   sample.query_embedding 7)
      = 3).
Proof.
  apply (rank_length insertion_argsort sample.posts_vec_matrix
           sample.query_embedding 7).
  - lia.
  - apply insertion_argsort_is_argsort.
Defined.

(** ** The query cell *)

Section QueryCell.
Variable argsort : list float -> list nat.
Variable str_float : float -> string.
Variable G : globals.
Variable posts_vec_matrix : matrix.

Local Abbreviation qstep := (query_step argsort str_float G posts_vec_matrix).
Local Abbreviation qloop := (query_loop argsort str_float G posts_vec_matrix).
Local Abbreviation qtop :=
  (query_top_posts argsort str_float G posts_vec_matrix).

(** One turn binds the key of the query to its [top_posts]; the empty list
    bound first is overwritten. *)
Lemma query_step_insert d query :
  qstep d query
  = top_posts ← qtop query;
    mret (<[query_str query := top_posts]> d).
Proof.
  unfold query_step, query_top_posts.
  destruct (compute_doc_embedding G query) as [e|x]; [|done]. cbn.
  destruct (top_posts_loop _ _ _ _ _) as [tp|x]; [|done]. cbn.
  by rewrite insert_insert_eq.
Qed.

Lemma query_step_Ok d query d' :
  qstep d query = Ok d' ->
  exists top_posts,
    qtop query = Ok top_posts
    /\ d' = <[query_str query := top_posts]> d.
Proof.
  rewrite query_step_insert.
  destruct (qtop query) as [tp|x]; [|done].
  cbn. intros [= <-]. by exists tp.
Qed.

(** A key that no query of the loop has keeps its entry. *)
Lemma query_loop_lookup_other queries : forall d out key,
  qloop d queries = Ok out ->
  key ∉ query_str <$> queries ->
  out !! key = d !! key.
Proof.
  induction queries as [|query queries IH]; intros d out key; cbn.
  - by intros [= <-].
  - destruct (qstep d query) as [d'|x] eqn:Hstep; [|done]. cbn.
    intros Hloop Hkey. apply not_elem_of_cons in Hkey as [Hne Hkey].
    rewrite (IH _ _ _ Hloop Hkey).
    apply query_step_Ok in Hstep as (tp & _ & ->).
    by rewrite lookup_insert_ne.
Qed.

Lemma query_loop_dom queries : forall d out,
  qloop d queries = Ok out ->
  dom out = dom d ∪ list_to_set (query_str <$> queries).
Proof.
  induction queries as [|query queries IH]; intros d out; cbn.
  - intros [= <-]. by rewrite (right_id_L ∅ (∪)).
  - destruct (qstep d query) as [d'|x] eqn:Hstep; [|done]. cbn.
    intros Hloop. rewrite (IH _ _ Hloop).
    apply query_step_Ok in Hstep as (tp & _ & ->).
    by rewrite dom_insert_L, (comm_L (∪) {[query_str query]}),
      <- (assoc_L (∪)).
Qed.

(** The entry of a key is the [top_posts] of the last query with it. *)
Lemma query_loop_last earlier : forall d out query later,
  qloop d (earlier ++ query :: later) = Ok out ->
  query_str query ∉ query_str <$> later ->
  exists top_posts,
    qtop query = Ok top_posts
    /\ out !! query_str query = Some top_posts.
Proof.
  induction earlier as [|q earlier IH]; intros d out query later; cbn.
  - destruct (qstep d query) as [d'|x] eqn:Hstep; [|done]. cbn.
    intros Hloop Hkey.
    apply query_step_Ok in Hstep as (tp & Htp & ->).
    exists tp. split; [done|].
    rewrite (query_loop_lookup_other _ _ _ _ Hloop Hkey).
    apply lookup_insert_eq.
  - destruct (qstep d q) as [d'|x]; [|done]. cbn. apply IH.
Qed.

(** Of two queries with one key, only the second leaves a trace. *)
Lemma query_loop_same_key d q1 q2 :
  query_str q1 = query_str q2 ->
  is_Ok (qtop q1) ->
  qloop d [q1; q2] = qloop d [q2].
Proof.
  intros Hkey [tp1 H1]. cbn [query_loop].
  rewrite (query_step_insert d q1), H1. cbn [mbind result_bind mret result_ret].
  rewrite !query_step_insert.
  destruct (qtop q2) as [tp2|x]; [|done].
  cbn [mbind result_bind mret result_ret].
  by rewrite Hkey, insert_insert_eq.
Qed.

End QueryCell.

(** C8.  When the query cell has gone through a sequence of queries, the
    keys of [query_posts_similarities] are the queries' tokens joined by a
    single space, and the entry of a key is the [top_posts] of the last
    query that has it: a later query overwrites the entry of an earlier one
    with the same key. *)
Theorem query_cell_keys argsort str_float G posts_vec_matrix queries out :
  query_cell argsort str_float G posts_vec_matrix queries = Ok out ->
  dom out = list_to_set (query_str <$> queries)
  /\ forall earlier query later,
      queries = earlier ++ query :: later ->
      query_str query ∉ query_str <$> later ->
      exists top_posts,
        query_top_posts argsort str_float G posts_vec_matrix query
        = Ok top_posts
        /\ out !! query_str query = Some top_posts.
Proof.
  unfold query_cell. intros Hcell. split.
  - rewrite (query_loop_dom _ _ _ _ _ _ _ Hcell).
    by rewrite dom_empty_L, (left_id_L ∅ (∪)).
  - intros earlier query later ->. by eapply query_loop_last.
Qed.

Lemma query_cell_keys_witness :
  exists out,
    query_cell insertion_argsort sample.str_float (sample.G 2)
      sample.posts_vec_matrix [["sunny day"]; ["rainy"]; ["sunny"; "day"]]
    = Ok out
    /\ dom out = ({["sunny day"; "rainy"]} : gset string).
Proof.
  destruct (query_cell insertion_argsort sample.str_float (sample.G 2)
              sample.posts_vec_matrix
              [["sunny day"]; ["rainy"]; ["sunny"; "day"]])
    as [out|x] eqn:E; [|vm_compute in E; discriminate E].
  exists out. split; [reflexivity|].
  rewrite (proj1 (query_cell_keys _ _ _ _ _ _ E)). cbn.
  rewrite (right_id_L ∅ (∪)), (comm_L (∪) {["rainy"]}), (assoc_L (∪)).
  by rewrite (idemp_L (∪)).
Defined.

(** The query of the one token [sunny day] and the query of the two tokens
    [sunny] and [day] have the same key, and the second overwrites the
    first: the cell ends as if the first had not been asked. *)
Lemma query_cell_overwrites :
  query_cell insertion_argsort sample.str_float (sample.G 2)
    sample.posts_vec_matrix [["sunny day"]; ["sunny"; "day"]]
  = query_cell insertion_argsort sample.str_float (sample.G 2)
      sample.posts_vec_matrix [["sunny"; "day"]]
  /\ query_top_posts insertion_argsort sample.str_float (sample.G 2)
       sample.posts_vec_matrix ["sunny day"]
     <> query_top_posts insertion_argsort sample.str_float (sample.G 2)
          sample.posts_vec_matrix ["sunny"; "day"].
Proof.
  split.
  - unfold query_cell. apply query_loop_same_key; [reflexivity|].
    destruct (query_top_posts _ _ _ _ ["sunny day"]) as [tp|x] eqn:E;
      [by eexists|vm_compute in E; discriminate E].
  - vm_compute. discriminate.
Qed.

(** With a matrix of no rows there is no score, and the ranking is empty,
    for every [k]. *)
Lemma rank_no_rows argsort query_embedding k :
  is_argsort [] (argsort []) = true ->
  rank argsort [] query_embedding k = [].
Proof.
  intros Hsort. unfold rank, top_indices. cbn.
  apply is_argsort_length in Hsort.
  destruct (argsort []); [|discriminate Hsort].
  unfold slice_from. by rewrite drop_nil.
Qed.

(** * Further properties of the code *)

(** ** What [compute_doc_embedding] returns and raises *)

Lemma iadd_broadcastable a b :
  length a = 300 -> broadcastable b = true -> is_Ok (np.iadd a b).
Proof.
  intros Ha Hb. unfold np.iadd. case_decide; [by eexists|].
  unfold broadcastable in Hb. apply orb_true_iff in Hb as [Hb|Hb].
  - apply Nat.eqb_eq in Hb. congruence.
  - apply Nat.eqb_eq in Hb. destruct b as [|x [|? ?]]; try discriminate Hb.
    by eexists.
Qed.

Lemma iadd_not_broadcastable a b :
  length a = 300 -> broadcastable b = false -> np.iadd a b = Raise ValueError.
Proof.
  intros Ha Hb. unfold broadcastable in Hb.
  apply orb_false_iff in Hb as [H300 H1].
  apply Nat.eqb_neq in H300, H1. unfold np.iadd.
  rewrite decide_False by congruence.
  by destruct b as [|x [|? ?]].
Qed.

Lemma embedding_loop_outcome G post tokens : forall doc,
  length doc = 300 ->
  match embedding_loop G post doc tokens with
  | Ok r => forallb (fun t => broadcastable (get_embedding G t)) tokens = true
  | Raise e =>
      e = ValueError
      /\ forallb (fun t => broadcastable (get_embedding G t)) tokens = false
  end.
Proof.
  induction tokens as [|token tokens IH]; intros doc Hdoc; [done|].
  cbn [embedding_loop forallb]. unfold embedding_step.
  destruct (broadcastable (get_embedding G token)) eqn:Hb.
  - destruct (iadd_broadcastable doc _ Hdoc Hb) as [c Hc]. rewrite Hc.
    cbn [mbind result_bind mret result_ret andb]. apply IH.
    rewrite divide_length. apply iadd_length in Hc. congruence.
  - by rewrite (iadd_not_broadcastable doc _ Hdoc Hb).
Qed.

Lemma compute_doc_embedding_raises G post e :
  compute_doc_embedding G post = Raise e -> e = ValueError.
Proof.
  intros H.
  pose proof (embedding_loop_outcome G post post (np.zeros 300)
                (zeros_length 300)) as Ho.
  unfold compute_doc_embedding in H. rewrite H in Ho. apply Ho.
Qed.

(** X1.  [compute_doc_embedding] returns, and then an array of 300 entries,
    exactly when the array of every token of the post can be added to one of
    300 entries: it has 300 entries or one, or the token has none.  With any
    other array in the post it raises [ValueError], and it raises nothing
    else. *)
Theorem compute_doc_embedding_outcome G post :
  match compute_doc_embedding G post with
  | Ok r =>
      length r = 300
      /\ forallb (fun t => broadcastable (get_embedding G t)) post = true
  | Raise e =>
      e = ValueError
      /\ forallb (fun t => broadcastable (get_embedding G t)) post = false
  end.
Proof.
  pose proof (embedding_loop_outcome G post post (np.zeros 300)
                (zeros_length 300)) as H.
  pose proof (compute_doc_embedding_length G post) as Hlen.
  unfold compute_doc_embedding in *.
  destruct (embedding_loop G post (np.zeros 300) post) as [r|e]; [|done].
  split; [by apply Hlen|done].
Qed.

(** ** The rows of [vectorize_posts] *)

Lemma vp_loop_rows G posts : forall st st',
  vp_inv st -> vp_loop G st posts = Ok st' ->
  exists rows,
    document_vec_l st' = document_vec_l st ++ rows
    /\ Forall2 (embeds G) posts rows.
Proof.
  induction posts as [|post posts IH]; intros st st' Hinv; cbn.
  - intros [= <-]. exists []. by rewrite app_nil_r.
  - destruct (vp_step G st post) as [st1|x] eqn:Hstep; [|done]. cbn.
    intros Hloop.
    destruct (vp_step_inv _ _ _ _ Hinv Hstep) as (Hinv1 & _ & _).
    destruct (IH _ _ Hinv1 Hloop) as (rows & Hrows & Hall).
    destruct (compute_doc_embedding G post) as [e|x] eqn:He.
    2:{ unfold vp_step in Hstep. by rewrite He in Hstep. }
    rewrite (vp_step_ok _ _ _ _ Hinv He) in Hstep. injection Hstep as <-.
    cbn in Hrows. exists (e :: rows). split.
    + by rewrite Hrows, <- app_assoc.
    + by constructor.
Qed.

Lemma vp_loop_complete G posts : forall st rows,
  vp_inv st -> Forall2 (embeds G) posts rows ->
  exists st', vp_loop G st posts = Ok st'
              /\ document_vec_l st' = document_vec_l st ++ rows.
Proof.
  induction posts as [|post posts IH]; intros st rows Hinv Hall.
  - apply Forall2_nil_inv_l in Hall as ->. exists st. by rewrite app_nil_r.
  - apply Forall2_cons_inv_l in Hall as (e & rows' & He & Hall & ->).
    cbn. pose proof (vp_step_ok _ _ _ _ Hinv He) as Hstep. rewrite Hstep. cbn.
    destruct (vp_step_inv _ _ _ _ Hinv Hstep) as (Hinv1 & _ & _).
    destruct (IH _ rows' Hinv1 Hall) as (st' & Hloop & Hl).
    exists st'. split; [done|]. rewrite Hl. cbn. by rewrite <- app_assoc.
Qed.

Lemma vp_loop_raise G posts : forall st e,
  vp_inv st -> vp_loop G st posts = Raise e ->
  e = ValueError
  /\ Exists (fun post => compute_doc_embedding G post = Raise ValueError)
            posts.
Proof.
  induction posts as [|post posts IH]; intros st e Hinv; cbn; [done|].
  destruct (compute_doc_embedding G post) as [r|x] eqn:He.
  - pose proof (vp_step_ok _ _ _ _ Hinv He) as Hstep. rewrite Hstep. cbn.
    destruct (vp_step_inv _ _ _ _ Hinv Hstep) as (Hinv1 & _ & _).
    intros Hloop. destruct (IH _ _ Hinv1 Hloop) as [-> Hex].
    split; [done|]. by apply Exists_cons_tl.
  - unfold vp_step. rewrite He. cbn. intros [= <-].
    pose proof (compute_doc_embedding_raises _ _ _ He) as ->.
    split; [done|]. by apply Exists_cons_hd.
Qed.

Lemma vectorize_posts_embeds G posts en_embeddings_arg m d :
  vectorize_posts G posts en_embeddings_arg = Ok (m, d) ->
  posts <> [] /\ Forall2 (embeds G) posts m.
Proof.
  unfold vectorize_posts.
  destruct (vp_loop G vp_init posts) as [st|x] eqn:Hst; [|done]. cbn.
  destruct (vp_loop_rows _ _ _ _ vp_init_inv Hst) as (rows & Hrows & Hall).
  destruct (vp_loop_inv _ _ _ _ vp_init_inv Hst) as ([_ _ _ Hm] & _ & _).
  destruct (document_vec_matrix st) as [m'|]; [|done].
  intros [= <- <-]. destruct Hm as [-> Hne]. cbn in Hrows. subst rows.
  split; [|done]. intros ->. by apply Forall2_nil_inv_l in Hall.
Qed.

Lemma vectorize_posts_complete G posts en_embeddings_arg m :
  posts <> [] -> Forall2 (embeds G) posts m ->
  exists d, vectorize_posts G posts en_embeddings_arg = Ok (m, d)
            /\ forall j, d !! j = m !! j.
Proof.
  intros Hne Hall. unfold vectorize_posts.
  destruct (vp_loop_complete G posts vp_init m vp_init_inv Hall)
    as (st & Hst & Hl).
  rewrite Hst. cbn. cbn in Hl.
  destruct (vp_loop_inv _ _ _ _ vp_init_inv Hst) as ([_ _ Hd Hm] & _ & Hnil).
  destruct (document_vec_matrix st) as [m'|].
  - destruct Hm as [-> _]. exists (ind2Doc_dict st). rewrite Hl.
    split; [done|]. intros j. by rewrite Hd, Hl.
  - by destruct (Hnil Hne).
Qed.

(** X2.  Whatever matrix [vectorize_posts] returns, its rows are the
    embeddings of the posts, one row per post and in the order of the posts:
    row [j] is what [compute_doc_embedding] returns for post [j].  Every row
    has 300 entries. *)
Theorem vectorize_posts_rows G posts en_embeddings_arg m d :
  vectorize_posts G posts en_embeddings_arg = Ok (m, d) ->
  Forall2 (embeds G) posts m
  /\ Forall (fun row => length row = 300) m.
Proof.
  intros Hv. apply vectorize_posts_embeds in Hv as [_ Hall].
  split; [done|].
  induction Hall as [|post row posts m' He _ IH]; [constructor|].
  constructor; [by eapply compute_doc_embedding_length|done].
Qed.

Lemma sample_vectorize_posts :
  exists d, vectorize_posts (sample.G 2) sample.posts sample.store
            = Ok (sample.posts_vec_matrix, d).
Proof.
  destruct (vectorize_posts (sample.G 2) sample.posts sample.store)
    as [[m d]|x] eqn:E; [|vm_compute in E; discriminate E].
  assert (Hm : m = sample.posts_vec_matrix).
  { vm_compute in E. injection E as <- _. reflexivity. }
  subst m. by exists d.
Defined.

Lemma vectorize_posts_rows_witness :
  Forall2 (embeds (sample.G 2)) sample.posts sample.posts_vec_matrix
  /\ Forall (fun row => length row = 300) sample.posts_vec_matrix.
Proof.
  destruct sample_vectorize_posts as [d E].
  exact (vectorize_posts_rows _ _ _ _ _ E).
Defined.

(** X3.  The three ways [vectorize_posts] can end.  It returns only for a
    list of posts that is not empty and whose posts all have an embedding; it
    raises [UnboundLocalError] only for the empty list; it raises
    [ValueError] only when the embedding of some post does; and it never
    raises [IndexError]. *)
Theorem vectorize_posts_outcome G posts en_embeddings_arg :
  match vectorize_posts G posts en_embeddings_arg with
  | Ok _ =>
      posts <> []
      /\ Forall (fun post => is_Ok (compute_doc_embedding G post)) posts
  | Raise UnboundLocalError => posts = []
  | Raise ValueError =>
      Exists (fun post => compute_doc_embedding G post = Raise ValueError)
             posts
  | Raise IndexError => False
  end.
Proof.
  destruct (vectorize_posts G posts en_embeddings_arg) as [[m d]|e] eqn:Hv.
  - apply vectorize_posts_embeds in Hv as [Hne Hall]. split; [done|].
    clear Hne.
    induction Hall as [|post row posts' m' He _ IH]; [constructor|].
    constructor; [by exists row|done].
  - unfold vectorize_posts in Hv.
    destruct (vp_loop G vp_init posts) as [st|x] eqn:Hst; cbn in Hv.
    + destruct (vp_loop_inv _ _ _ _ vp_init_inv Hst)
        as ([_ _ _ Hm] & Hlen & _).
      destruct (document_vec_matrix st); [done|]. injection Hv as <-.
      rewrite Hm in Hlen. cbn in Hlen. by destruct posts.
    + injection Hv as <-.
      by destruct (vp_loop_raise _ _ _ _ vp_init_inv Hst) as [-> Hex].
Qed.

(** X4.  The matrix of two lists of posts one after the other is the matrix
    of the first on top of the matrix of the second, and the dictionary
    returned with it maps every index to its row. *)
Theorem vectorize_posts_app G posts1 posts2 arg m1 d1 m2 d2 :
  vectorize_posts G posts1 arg = Ok (m1, d1) ->
  vectorize_posts G posts2 arg = Ok (m2, d2) ->
  exists d, vectorize_posts G (posts1 ++ posts2) arg = Ok (m1 ++ m2, d)
            /\ forall j, d !! j = (m1 ++ m2) !! j.
Proof.
  intros H1 H2.
  apply vectorize_posts_embeds in H1 as [Hne1 Hall1].
  apply vectorize_posts_embeds in H2 as [_ Hall2].
  apply vectorize_posts_complete.
  - by destruct posts1.
  - by apply Forall2_app.
Qed.

Lemma vectorize_posts_app_witness :
  exists d,
    vectorize_posts (sample.G 2) (sample.posts ++ sample.posts) sample.store
    = Ok (sample.posts_vec_matrix ++ sample.posts_vec_matrix, d)
    /\ forall j, d !! j
                 = (sample.posts_vec_matrix ++ sample.posts_vec_matrix) !! j.
Proof.
  destruct sample_vectorize_posts as [d E].
  exact (vectorize_posts_app _ _ _ _ _ _ _ _ E E).
Defined.

(** ** Which posts are ranked *)

Lemma is_argsort_NoDup v idx : is_argsort v idx = true -> NoDup idx.
Proof.
  unfold is_argsort. rewrite !andb_true_iff, bool_decide_eq_true. tauto.
Qed.

(** The result of an [argsort] has every index of the array. *)
Lemma is_argsort_complete v idx j :
  is_argsort v idx = true -> j < length v -> j ∈ idx.
Proof.
  intros Hsort Hj.
  assert (Hperm : idx ≡ₚ seq 0 (length v)).
  { apply submseteq_length_Permutation.
    - apply NoDup_submseteq; [by eapply is_argsort_NoDup|].
      intros x Hx. apply elem_of_seq.
      pose proof (is_argsort_in_range _ _ _ Hsort Hx). lia.
    - rewrite length_seq. by rewrite (is_argsort_length _ _ Hsort). }
  rewrite Hperm. apply elem_of_seq. lia.
Qed.

Section Ranked.
Variable argsort : list float -> list nat.

Lemma top_indices_distinct_in_range v k :
  is_argsort v (argsort v) = true ->
  NoDup (top_indices argsort v k)
  /\ Forall (fun idx => idx < length v) (top_indices argsort v k).
Proof.
  intros Hsort. split.
  - destruct (top_indices_suffix argsort v k) as [n ->].
    rewrite reverse_Permutation.
    eapply sublist_NoDup; [by eapply is_argsort_NoDup|apply sublist_drop].
  - apply Forall_forall. intros idx Hidx.
    apply top_indices_elem_of in Hidx. by eapply is_argsort_in_range.
Qed.

Lemma top_indices_highest v k idx j :
  is_argsort v (argsort v) = true ->
  idx ∈ top_indices argsort v k -> j < length v ->
  j ∉ top_indices argsort v k ->
  npy_lt (item v idx) (item v j) = false.
Proof.
  intros Hsort Hidx Hj Hnot.
  destruct (top_indices_suffix argsort v k) as [n Hn]. rewrite Hn in *.
  rewrite elem_of_reverse in Hidx, Hnot.
  pose proof (is_argsort_complete _ _ _ Hsort Hj) as Hin.
  rewrite <- (take_drop n (argsort v)) in Hin.
  apply elem_of_app in Hin as [Hin|Hin]; [|done].
  pose proof (is_argsort_ascending _ _ Hsort) as Hasc.
  unfold ascending in Hasc.
  rewrite <- (take_drop n (argsort v)), pairwise_app in Hasc.
  apply andb_true_iff in Hasc as [_ Hcross].
  rewrite forallb_forall in Hcross.
  specialize (Hcross j ltac:(by apply list_elem_of_In)).
  rewrite forallb_forall in Hcross.
  specialize (Hcross idx ltac:(by apply list_elem_of_In)).
  by apply negb_true_iff in Hcross.
Qed.

Lemma top_indices_prefix v k k' :
  (0 < k <= k')%Z ->
  top_indices argsort v k `prefix_of` top_indices argsort v k'.
Proof.
  intros Hk. unfold top_indices.
  rewrite !slice_from_last by lia.
  apply suffix_prefix_reverse.
  set (l := argsort v).
  replace (length l - Z.to_nat k)
    with ((length l - Z.to_nat k')
          + (Z.to_nat k' `min` length l - Z.to_nat k `min` length l)) by lia.
  rewrite <- drop_drop. apply suffix_drop.
Qed.

(** X5.  For every [k], no post is ranked twice and every ranked index is
    the index of a row of the matrix, so that [cosine_score[idx]] never
    fails. *)
Theorem rank_distinct_in_range posts_vec_matrix query_embedding k :
  let cosine_score := cosine_similarity posts_vec_matrix query_embedding in
  is_argsort cosine_score (argsort cosine_score) = true ->
  NoDup (rank argsort posts_vec_matrix query_embedding k)
  /\ Forall (fun idx => idx < length posts_vec_matrix)
            (rank argsort posts_vec_matrix query_embedding k).
Proof.
  intros v Hsort.
  destruct (top_indices_distinct_in_range v k Hsort) as [Hnd Hr].
  split; [exact Hnd|].
  unfold v in Hr. by rewrite cosine_similarity_length in Hr.
Qed.

(** X6.  The ranked posts are the best: a post that is not ranked has no
    higher score, in NumPy's order, than any post that is. *)
Theorem rank_selects_highest posts_vec_matrix query_embedding k idx j :
  let cosine_score := cosine_similarity posts_vec_matrix query_embedding in
  is_argsort cosine_score (argsort cosine_score) = true ->
  idx ∈ rank argsort posts_vec_matrix query_embedding k ->
  j < length posts_vec_matrix ->
  j ∉ rank argsort posts_vec_matrix query_embedding k ->
  npy_lt (item cosine_score idx) (item cosine_score j) = false.
Proof.
  intros v Hsort Hidx Hj Hnot.
  apply (top_indices_highest v k); try done.
  unfold v. by rewrite cosine_similarity_length.
Qed.

(** X7.  Asking for more posts only adds to the end of the ranking: for
    [0 < k <= k'] the ranking for [k] is the beginning of the ranking for
    [k']. *)
Theorem rank_prefix posts_vec_matrix query_embedding k k' :
  (0 < k <= k')%Z ->
  rank argsort posts_vec_matrix query_embedding k
  `prefix_of` rank argsort posts_vec_matrix query_embedding k'.
Proof. apply top_indices_prefix. Qed.

End Ranked.

Lemma sample_rank_2 :
  rank insertion_argsort sample.posts_vec_matrix sample.query_embedding 2
  = [2; 0].
Proof. vm_compute. reflexivity. Defined.

Lemma rank_distinct_in_range_witness :
  NoDup (rank insertion_argsort sample.posts_vec_matrix
              sample.query_embedding 2)
  /\ Forall (fun idx => idx < length sample.posts_vec_matrix)
            (rank insertion_argsort sample.posts_vec_matrix
                  sample.query_embedding 2).
Proof.
  apply (rank_distinct_in_range insertion_argsort sample.posts_vec_matrix
           sample.query_embedding 2).
  apply insertion_argsort_is_argsort.
Defined.

Lemma rank_selects_highest_witness :
  npy_lt (item sample.cosine_score 2) (item sample.cosine_score 1) = false.
Proof.
  apply (rank_selects_highest insertion_argsort sample.posts_vec_matrix
           sample.query_embedding 2 2 1).
  - apply insertion_argsort_is_argsort.
  - rewrite sample_rank_2. apply list_elem_of_here.
  - cbn. lia.
  - rewrite sample_rank_2. intros H.
    apply elem_of_cons in H as [H|H]; [discriminate H|].
    apply elem_of_cons in H as [H|H]; [discriminate H|].
    by apply elem_of_nil in H.
Defined.

Lemma rank_prefix_witness :
  rank insertion_argsort sample.posts_vec_matrix sample.query_embedding 1
  `prefix_of`
  rank insertion_argsort sample.posts_vec_matrix sample.query_embedding 2.
Proof.
  apply (rank_prefix insertion_argsort sample.posts_vec_matrix
           sample.query_embedding 1 2).
  lia.
Defined.

(** ** The entries of [top_posts] *)

Lemma getitem_lt {A} (l : list A) idx :
  idx < length l -> exists x, l !! idx = Some x /\ getitem l idx = Ok x.
Proof.
  intros H. destruct (lookup_lt_is_Some_2 l idx H) as [x Hx].
  exists x. unfold getitem. by rewrite Hx.
Qed.

Lemma getitem_ge {A} (l : list A) idx :
  length l <= idx -> getitem l idx = Raise IndexError.
Proof. intros H. unfold getitem. by rewrite lookup_ge_None_2. Qed.

Lemma map_fmap {A B} (f : A -> B) (l : list A) : map f l = f <$> l.
Proof. induction l as [|a l IH]; cbn; congruence. Qed.

Section TopPosts.
Variable argsort : list float -> list nat.
Variable str_float : float -> string.
Variable G : globals.

Lemma top_post_of_in_range score idx :
  idx < length (ls_posts G) -> idx < length score ->
  top_post_of str_float G score idx = Ok (top_post_at str_float G score idx).
Proof.
  intros Hp Hs. unfold top_post_of, top_post_at, item.
  destruct (getitem_lt _ _ Hp) as (t & Ht & ->).
  destruct (getitem_lt _ _ Hs) as (x & Hx & ->). cbn.
  by rewrite Ht, Hx.
Qed.

Lemma top_post_of_out_of_range score idx :
  length (ls_posts G) <= idx \/ length score <= idx ->
  top_post_of str_float G score idx = Raise IndexError.
Proof.
  intros Hout. unfold top_post_of.
  destruct (decide (idx < length (ls_posts G))) as [Hp|Hp].
  - destruct (getitem_lt _ _ Hp) as (t & _ & ->). cbn.
    rewrite (getitem_ge score) by lia. done.
  - rewrite (getitem_ge (ls_posts G)) by lia. done.
Qed.

Lemma top_posts_loop_in_range score indices : forall acc,
  Forall (fun idx => idx < length (ls_posts G) /\ idx < length score)
         indices ->
  top_posts_loop str_float G score acc indices
  = Ok (acc ++ map (top_post_at str_float G score) indices).
Proof.
  induction indices as [|idx indices IH]; intros acc Hall; cbn.
  - by rewrite app_nil_r.
  - apply Forall_cons in Hall as [[Hp Hs] Hall].
    rewrite top_post_of_in_range by done. cbn.
    rewrite IH by done. by rewrite <- app_assoc.
Qed.

Lemma top_posts_loop_out_of_range score indices : forall acc,
  Exists (fun idx => length (ls_posts G) <= idx \/ length score <= idx)
         indices ->
  top_posts_loop str_float G score acc indices = Raise IndexError.
Proof.
  induction indices as [|idx indices IH]; intros acc Hex.
  { by apply Exists_nil in Hex. }
  cbn. destruct (decide (idx < length (ls_posts G) /\ idx < length score))
    as [[Hp Hs]|Hout].
  - rewrite top_post_of_in_range by done. cbn. apply IH.
    apply Exists_cons in Hex as [Hex|Hex]; [lia|done].
  - rewrite top_post_of_out_of_range by lia. done.
Qed.

Variable posts_vec_matrix : matrix.

(** With at least as many raw posts as rows, every ranked index is found. *)
Lemma query_top_posts_in_range query e :
  compute_doc_embedding G query = Ok e ->
  is_argsort (cosine_similarity posts_vec_matrix e)
             (argsort (cosine_similarity posts_vec_matrix e)) = true ->
  length posts_vec_matrix <= length (ls_posts G) ->
  query_top_posts argsort str_float G posts_vec_matrix query
  = Ok (map (top_post_at str_float G (cosine_similarity posts_vec_matrix e))
            (rank argsort posts_vec_matrix e (top_k G))).
Proof.
  intros He Hsort Hlen. unfold query_top_posts. rewrite He. cbn.
  destruct (top_indices_distinct_in_range argsort _ (top_k G) Hsort)
    as [_ Hrange].
  rewrite top_posts_loop_in_range; [done|].
  eapply Forall_impl; [exact Hrange|]. cbn. intros idx Hidx.
  rewrite cosine_similarity_length in *. lia.
Qed.

(** X8.  When [ls_posts] has at least as many posts as the matrix has rows,
    the [top_posts] of a query are the ranked indices in ranking order, each
    with the raw text [ls_posts[idx]] and the score [cosine_score[idx]] of
    its own index; the ['post ID'] values are pairwise distinct. *)
Theorem query_top_posts_resolves query e :
  let cosine_score := cosine_similarity posts_vec_matrix e in
  let ranked := rank argsort posts_vec_matrix e (top_k G) in
  compute_doc_embedding G query = Ok e ->
  is_argsort cosine_score (argsort cosine_score) = true ->
  length posts_vec_matrix <= length (ls_posts G) ->
  query_top_posts argsort str_float G posts_vec_matrix query
  = Ok (map (top_post_at str_float G cosine_score) ranked)
  /\ NoDup (map post_ID (map (top_post_at str_float G cosine_score) ranked)).
Proof.
  intros score ranked He Hsort Hlen.
  split; [by apply query_top_posts_in_range|].
  destruct (top_indices_distinct_in_range argsort score (top_k G) Hsort)
    as [Hnd _].
  rewrite map_map. cbn. rewrite map_fmap.
  apply (NoDup_fmap_2 _). exact Hnd.
Qed.

(** X9.  When [ls_posts] has fewer posts than the matrix has rows and
    [top-k] is at least the number of rows, every query whose embedding is
    computed ends in [IndexError]: all rows are ranked, among them one with
    no raw post. *)
Theorem query_top_posts_short_ls_posts query e :
  let cosine_score := cosine_similarity posts_vec_matrix e in
  compute_doc_embedding G query = Ok e ->
  is_argsort cosine_score (argsort cosine_score) = true ->
  length (ls_posts G) < length posts_vec_matrix ->
  (Z.of_nat (length posts_vec_matrix) <= top_k G)%Z ->
  query_top_posts argsort str_float G posts_vec_matrix query
  = Raise IndexError.
Proof.
  intros score He Hsort Hshort Hk. unfold query_top_posts. rewrite He. cbn.
  fold score. apply top_posts_loop_out_of_range.
  apply Exists_exists. exists (length (ls_posts G)). split; [|lia].
  assert (Hin : length (ls_posts G) ∈ argsort score).
  { apply (is_argsort_complete score); [done|].
    unfold score. by rewrite cosine_similarity_length. }
  unfold top_indices. rewrite slice_from_last by lia.
  rewrite elem_of_reverse.
  replace (length (argsort score) - Z.to_nat (top_k G)) with 0; [done|].
  rewrite (is_argsort_length _ _ Hsort). unfold score.
  rewrite cosine_similarity_length. lia.
Qed.

End TopPosts.

Lemma sample_query_embedding G :
  en_embeddings G = sample.store ->
  compute_doc_embedding G ["sunny"] = Ok sample.query_embedding.
Proof.
  intros Hstore. unfold compute_doc_embedding.
  rewrite (embedding_loop_table G (sample.G 2)) by exact Hstore.
  vm_compute. reflexivity.
Defined.

Lemma query_top_posts_resolves_witness :
  query_top_posts insertion_argsort sample.str_float (sample.G 2)
    sample.posts_vec_matrix ["sunny"]
  = Ok (map (top_post_at sample.str_float (sample.G 2) sample.cosine_score)
            (rank insertion_argsort sample.posts_vec_matrix
                  sample.query_embedding 2))
  /\ NoDup (map post_ID
              (map (top_post_at sample.str_float (sample.G 2)
                      sample.cosine_score)
                   (rank insertion_argsort sample.posts_vec_matrix
                         sample.query_embedding 2))).
Proof.
  apply (query_top_posts_resolves insertion_argsort sample.str_float
           (sample.G 2) sample.posts_vec_matrix ["sunny"]
           sample.query_embedding).
  - by apply sample_query_embedding.
  - apply insertion_argsort_is_argsort.
  - cbn. lia.
Defined.

Lemma query_top_posts_short_ls_posts_witness :
  query_top_posts insertion_argsort sample.str_float (short.G 3)
    sample.posts_vec_matrix ["sunny"]
  = Raise IndexError.
Proof.
  apply (query_top_posts_short_ls_posts insertion_argsort sample.str_float
           (short.G 3) sample.posts_vec_matrix ["sunny"]
           sample.query_embedding).
  - by apply sample_query_embedding.
  - apply insertion_argsort_is_argsort.
  - cbn. lia.
  - cbn. lia.
Defined.

(** ** The query cell as a whole *)

Section Cell.
Variable argsort : list float -> list nat.
Variable str_float : float -> string.
Variable G : globals.
Variable posts_vec_matrix : matrix.

Local Abbreviation cloop := (query_loop argsort str_float G posts_vec_matrix).
Local Abbreviation ctop :=
  (query_top_posts argsort str_float G posts_vec_matrix).

Lemma query_loop_total queries : forall d,
  Forall (fun q => is_Ok (ctop q)) queries -> is_Ok (cloop d queries).
Proof.
  induction queries as [|q queries IH]; intros d Hall; [by eexists|].
  apply Forall_cons in Hall as [[tp Htp] Hall].
  cbn. rewrite query_step_insert, Htp. cbn. by apply IH.
Qed.

(** Every query has an entry under its key, that of a query with the key. *)
Lemma query_loop_entries queries : forall d out query,
  cloop d queries = Ok out -> query ∈ queries ->
  exists q' top_posts,
    q' ∈ queries /\ query_str q' = query_str query
    /\ ctop q' = Ok top_posts
    /\ out !! query_str query = Some top_posts.
Proof.
  induction queries as [|q queries IH]; intros d out query Hloop Hin.
  { by apply elem_of_nil in Hin. }
  cbn in Hloop.
  destruct (query_step argsort str_float G posts_vec_matrix d q)
    as [d'|x] eqn:Hstep; [|done].
  cbn in Hloop. apply query_step_Ok in Hstep as (tp & Htp & ->).
  destruct (decide (query_str query ∈ query_str <$> queries)) as [Hk|Hk].
  - apply list_elem_of_fmap in Hk as (x & Hx & Hxin).
    destruct (IH _ _ x Hloop Hxin) as (q' & tp' & Hq' & Hkey & Htp' & Hout).
    exists q', tp'. rewrite <- Hx in Hout.
    split; [by right|]. split; [congruence|]. done.
  - apply elem_of_cons in Hin as [->|Hin].
    2:{ destruct Hk. apply list_elem_of_fmap. by exists query. }
    exists q, tp. split; [by left|]. split; [done|]. split; [done|].
    rewrite (query_loop_lookup_other _ _ _ _ _ _ _ _ Hloop Hk).
    apply lookup_insert_eq.
Qed.

Local Abbreviation gstep :=
  (query_step_global argsort str_float G posts_vec_matrix).
Local Abbreviation gloop :=
  (query_loop_global argsort str_float G posts_vec_matrix).

(** A turn that raises nothing leaves the entry of the query. *)
Lemma query_step_global_Ok d query top_posts :
  ctop query = Ok top_posts ->
  gstep d query = (<[query_str query := top_posts]> d, None).
Proof.
  unfold query_top_posts, query_step_global.
  destruct (compute_doc_embedding G query) as [e|x]; [|done]. cbn.
  destruct (top_posts_loop _ _ _ _ _) as [tp|x]; [|done].
  intros [= <-]. by rewrite insert_insert_eq.
Qed.

(** A turn that raises leaves the key bound to the empty list when the
    embedding of the query had been computed, and nothing otherwise. *)
Lemma query_step_global_Raise d query e :
  ctop query = Raise e ->
  gstep d query
  = (match compute_doc_embedding G query with
     | Ok _ => <[query_str query := []]> d
     | Raise _ => d
     end, Some e).
Proof.
  unfold query_top_posts, query_step_global.
  destruct (compute_doc_embedding G query) as [emb|x]; cbn.
  - destruct (top_posts_loop _ _ _ _ _) as [tp|x]; [done|]. by intros [= <-].
  - by intros [= <-].
Qed.

(** The two models of the cell agree: the value the cell ends with is the
    global it leaves, and the exception that ends it is the same. *)
Lemma query_loop_global_agrees queries : forall d,
  match cloop d queries with
  | Ok out => gloop d queries = (out, None)
  | Raise e => exists d', gloop d queries = (d', Some e)
  end.
Proof.
  induction queries as [|q queries IH]; intros d; [done|].
  cbn [query_loop query_loop_global]. rewrite query_step_insert.
  destruct (ctop q) as [tp|e] eqn:Hq; cbn [mbind result_bind mret result_ret].
  - rewrite (query_step_global_Ok _ _ _ Hq). apply IH.
  - rewrite (query_step_global_Raise _ _ _ Hq). by eexists.
Qed.

Lemma query_loop_global_first_failure earlier : forall d d0 query later e,
  cloop d earlier = Ok d0 ->
  ctop query = Raise e ->
  gloop d (earlier ++ query :: later)
  = (match compute_doc_embedding G query with
     | Ok _ => <[query_str query := []]> d0
     | Raise _ => d0
     end, Some e).
Proof.
  induction earlier as [|q earlier IH]; intros d d0 query later e Hd0 Hq.
  - injection Hd0 as <-. cbn [app query_loop_global].
    by rewrite (query_step_global_Raise _ _ _ Hq).
  - cbn [query_loop] in Hd0.
    destruct (query_step argsort str_float G posts_vec_matrix d q)
      as [d'|x] eqn:Hstep; [|done].
    cbn [mbind result_bind] in Hd0.
    apply query_step_Ok in Hstep as (tp & Htp & ->).
    change ((q :: earlier) ++ query :: later)
      with (q :: (earlier ++ query :: later)).
    cbn [query_loop_global]. rewrite (query_step_global_Ok _ _ _ Htp).
    by apply IH.
Qed.

(** X10.  When the queries before it raise nothing, the first query that
    raises ends the cell with its exception, and the global
    [query_posts_similarities] is then what the cell would have returned for
    the earlier queries alone, but for the key of the failing query: when the
    embedding of that query had been computed, so that the exception comes
    from the loop over [top_indices], the key is bound to the empty list,
    also over an earlier entry with that key.  The queries after it leave
    nothing. *)
Theorem query_cell_global_first_failure earlier query later e d0 :
  query_cell argsort str_float G posts_vec_matrix earlier = Ok d0 ->
  ctop query = Raise e ->
  query_cell_global argsort str_float G posts_vec_matrix
    (earlier ++ query :: later)
  = (match compute_doc_embedding G query with
     | Ok _ => <[query_str query := []]> d0
     | Raise _ => d0
     end, Some e).
Proof. apply query_loop_global_first_failure. Qed.

(** X11.  The cell returns at most one entry per query, and exactly one per
    query when no two queries have the same key. *)
Theorem query_cell_size queries out :
  query_cell argsort str_float G posts_vec_matrix queries = Ok out ->
  size out <= length queries
  /\ (NoDup (query_str <$> queries) -> size out = length queries).
Proof.
  intros Hcell. unfold query_cell in Hcell.
  apply query_loop_dom in Hcell.
  rewrite dom_empty_L, (left_id_L ∅ (∪)) in Hcell.
  rewrite <- (size_dom out), Hcell. split.
  - rewrite <- (length_fmap query_str queries).
    generalize (query_str <$> queries). intros l.
    induction l as [|a l IH]; cbn; [by rewrite size_empty|].
    destruct (decide (a ∈ (list_to_set l : gset string))) as [Ha|Ha].
    + rewrite (subseteq_union_1_L {[a]})
        by (by apply singleton_subseteq_l). lia.
    + rewrite size_union by (by apply disjoint_singleton_l).
      rewrite size_singleton. lia.
  - intros Hnd. rewrite size_list_to_set by done. apply length_fmap.
Qed.

End Cell.

Lemma query_cell_global_first_failure_witness :
  exists d0,
    query_cell insertion_argsort sample.str_float (short.G 1)
      sample.posts_vec_matrix [["rainy"]] = Ok d0
    /\ query_cell_global insertion_argsort sample.str_float (short.G 1)
         sample.posts_vec_matrix ([["rainy"]] ++ ["sunny"] :: [["rainy"]])
       = (<["sunny" := []]> d0, Some IndexError).
Proof.
  destruct (query_cell insertion_argsort sample.str_float (short.G 1)
              sample.posts_vec_matrix [["rainy"]])
    as [d0|x] eqn:E; [|vm_compute in E; discriminate E].
  exists d0. split; [reflexivity|].
  pose proof (query_cell_global_first_failure insertion_argsort
                sample.str_float (short.G 1) sample.posts_vec_matrix
                [["rainy"]] ["sunny"] [["rainy"]] IndexError d0 E) as H.
  rewrite (sample_query_embedding (short.G 1) eq_refl) in H.
  apply H. vm_compute. reflexivity.
Defined.

Lemma query_cell_size_witness :
  exists out,
    query_cell insertion_argsort sample.str_float (sample.G 2)
      sample.posts_vec_matrix [["sunny"]; ["rainy"]]
    = Ok out
    /\ size out <= 2.
Proof.
  destruct (query_cell insertion_argsort sample.str_float (sample.G 2)
              sample.posts_vec_matrix [["sunny"]; ["rainy"]])
    as [out|x] eqn:E; [|vm_compute in E; discriminate E].
  exists out. split; [reflexivity|].
  exact (proj1 (query_cell_size _ _ _ _ _ _ E)).
Defined.

(** ** Keys *)

Lemma no_space_append_split s1 : forall s2 r1 r2,
  no_space s1 = true -> no_space s2 = true ->
  (s1 ++ " " ++ r1 = s2 ++ " " ++ r2)%string -> s1 = s2 /\ r1 = r2.
Proof.
  induction s1 as [|c s1 IH]; intros [|c' s2] r1 r2 H1 H2 Heq; cbn in *.
  - by injection Heq.
  - injection Heq as <- _. apply andb_true_iff in H2 as [H2 _].
    by rewrite Ascii.eqb_refl in H2.
  - injection Heq as -> _. apply andb_true_iff in H1 as [H1 _].
    by rewrite Ascii.eqb_refl in H1.
  - injection Heq as <- Heq.
    apply andb_true_iff in H1 as [_ H1]. apply andb_true_iff in H2 as [_ H2].
    destruct (IH _ _ _ H1 H2 Heq) as [-> ->]. done.
Qed.

Lemma no_space_not_append s : forall t r,
  no_space s = true -> s <> (t ++ " " ++ r)%string.
Proof.
  induction s as [|c s IH]; intros [|c' t] r Hs Heq; cbn in *; try done.
  - injection Heq as -> _. apply andb_true_iff in Hs as [Hs _].
    by rewrite Ascii.eqb_refl in Hs.
  - injection Heq as _ Heq. apply andb_true_iff in Hs as [_ Hs].
    by apply (IH _ _ Hs Heq).
Qed.

(** X12.  Two queries with at least one token each, and no space inside a
    token, have the same key only when they are the same sequence of tokens:
    for such queries an entry is overwritten only by a repetition of the
    query. *)
Theorem query_str_inj q1 : forall q2,
  q1 <> [] -> q2 <> [] ->
  forallb no_space q1 = true -> forallb no_space q2 = true ->
  query_str q1 = query_str q2 -> q1 = q2.
Proof.
  unfold query_str.
  induction q1 as [|a [|a' r1] IH]; intros [|b [|b' r2]] Hne1 Hne2 H1 H2 Heq;
    try done.
  - cbn in Heq. by subst.
  - cbn [String.concat] in Heq. cbn in H1.
    apply andb_true_iff in H1 as [H1 _].
    by apply no_space_not_append in Heq.
  - cbn [String.concat] in Heq. cbn in H2.
    apply andb_true_iff in H2 as [H2 _].
    symmetry in Heq. by apply no_space_not_append in Heq.
  - cbn [forallb] in H1, H2.
    apply andb_true_iff in H1 as [Ha H1].
    apply andb_true_iff in H2 as [Hb H2].
    change (String.concat " " (a :: a' :: r1))
      with (a ++ " " ++ String.concat " " (a' :: r1))%string in Heq.
    change (String.concat " " (b :: b' :: r2))
      with (b ++ " " ++ String.concat " " (b' :: r2))%string in Heq.
    destruct (no_space_append_split _ _ _ _ Ha Hb Heq) as [-> Hrest].
    f_equal. by apply IH.
Qed.

Lemma query_str_inj_witness :
  ["social"; "media"] = ["social"; "media"].
Proof.
  apply (query_str_inj ["social"; "media"] ["social"; "media"]);
    try discriminate; reflexivity.
Defined.

(** ** The cells one after the other *)

Section Run.
Variable argsort : list float -> list nat.
Variable str_float : float -> string.

(** X13.  With a table whose arrays have 300 entries, at least one post, a
    raw post for each tokenized post and a positive [top-k], the two cells
    run through for every list of queries, and every query has an entry
    under its key with exactly [min (top-k) N] posts, N the number of
    posts. *)
Theorem notebook_runs G tokenized_posts tokenized_queries :
  store_wf (en_embeddings G) ->
  tokenized_posts <> [] ->
  length tokenized_posts <= length (ls_posts G) ->
  (forall v, is_argsort v (argsort v) = true) ->
  (0 < top_k G)%Z ->
  exists out,
    notebook argsort str_float G tokenized_posts tokenized_queries = Ok out
    /\ forall query, query ∈ tokenized_queries ->
         exists top_posts,
           out !! query_str query = Some top_posts
           /\ length top_posts
              = Nat.min (Z.to_nat (top_k G)) (length tokenized_posts).
Proof.
  intros Hwf Hne Hlen Hsort Hk. unfold notebook.
  destruct (vp_loop_total G tokenized_posts vp_init Hwf vp_init_inv)
    as [st Hst].
  destruct (vp_loop_inv _ _ _ _ vp_init_inv Hst) as ([_ _ _ Hm] & Hl & Hnil).
  unfold vectorize_posts. rewrite Hst. cbn [mbind result_bind].
  destruct (document_vec_matrix st) as [m|]; [|by destruct (Hnil Hne)].
  destruct Hm as [-> _]. cbn [mbind result_bind fst]. cbn in Hl.
  set (m := document_vec_l st) in *.
  assert (Hq : forall q,
             exists e, compute_doc_embedding G q = Ok e
               /\ query_top_posts argsort str_float G m q
                  = Ok (map (top_post_at str_float G (cosine_similarity m e))
                            (rank argsort m e (top_k G)))
               /\ length (rank argsort m e (top_k G))
                  = Nat.min (Z.to_nat (top_k G)) (length tokenized_posts)).
  { intros q.
    pose proof (embedding_loop_fold G q q (np.zeros 300) Hwf
                  (zeros_length 300)) as He.
    eexists. split; [exact He|]. split.
    - apply query_top_posts_in_range; [exact He|apply Hsort|lia].
    - unfold rank. rewrite top_indices_length by done.
      rewrite (is_argsort_length _ _ (Hsort _)), cosine_similarity_length.
      by rewrite Hl. }
  destruct (query_loop_total argsort str_float G m tokenized_queries ∅)
    as [out Hout].
  { apply Forall_forall. intros q _. destruct (Hq q) as (e & _ & Htp & _).
    by eexists. }
  exists out. split; [exact Hout|].
  intros query Hin.
  destruct (query_loop_entries _ _ _ _ _ _ _ _ Hout Hin)
    as (q' & tp & _ & _ & Htp & Hlook).
  exists tp. split; [done|].
  destruct (Hq q') as (e & _ & Htp' & Hlen'). rewrite Htp' in Htp.
  injection Htp as <-. by rewrite length_map.
Qed.

End Run.

Lemma notebook_runs_witness :
  exists out,
    notebook insertion_argsort sample.str_float (sample.G 2) sample.posts
      [["sunny"]; ["rainy"; "day"]]
    = Ok out
    /\ forall query, query ∈ [["sunny"]; ["rainy"; "day"]] ->
         exists top_posts,
           out !! query_str query = Some top_posts
           /\ length top_posts = Nat.min (Z.to_nat 2) (length sample.posts).
Proof.
  apply (notebook_runs insertion_argsort sample.str_float (sample.G 2)
           sample.posts [["sunny"]; ["rainy"; "day"]]).
  - exact sample_store_wf.
  - discriminate.
  - cbn. lia.
  - exact insertion_argsort_is_argsort.
  - cbn. lia.
Defined.
